(** * novos heap-dump tools: decoders and adjacency report

    A shallow embedding of the three Python scripts under [tools/] that read
    allocator dumps:

    - [tools/process_raw_serial_dump.py]  (module [RawSerial]),
    - [tools/parse_heap_raw.py]           (module [HeapRaw]),
    - [tools/sort_block_output.py]        (module [SortBlocks]).

    Python integers are [Z]; a file read with [open(.., "rb").read()] and
    turned into a list is a [list byte]; list positions and cursors are
    [nat]. *)

From Stdlib Require Import ZArith List Bool Arith Lia Permutation Sorted.
From Stdlib Require Import Strings.Byte.
Import ListNotations.

(** ** Python primitives shared by the scripts *)

(** The integer an element of [list(bytes)] stands for, in [0, 255]. *)
Definition byte_val (b : byte) : Z := Z.of_N (Byte.to_N b).

(** [int.from_bytes(bs, "little")]. *)
Fixpoint int_from_bytes_little (bs : list byte) : Z :=
  match bs with
  | [] => 0
  | b :: rest => byte_val b + 256 * int_from_bytes_little rest
  end%Z.

(** [l[start:stop]] for [0 <= start <= stop]: the slice is cut short at the
    end of the list and never raises. *)
Definition slice {A : Type} (l : list A) (start stop : nat) : list A :=
  firstn (stop - start) (skipn start l).

(** The values of an unsigned 64-bit field. *)
Definition u64 (z : Z) : Prop := (0 <= z < 2 ^ 64)%Z.

(** A value or a raised Python exception. *)
Inductive Result (E A : Type) : Type :=
| Ok (a : A)
| Raise (e : E).
Arguments Ok {E A} a.
Arguments Raise {E A} e.

(** ** tools/process_raw_serial_dump.py *)
Module RawSerial.

Inductive Exception : Type :=
| IndexError             (* [read_bytes(1)[0]] on an empty slice *)
| UnicodeDecodeError     (* [bytes(filename).decode('utf-8')] *)
| SystemExit (code : Z)  (* [print("Invalid command"); exit(-1)] *)
| FuelExhausted.         (* artefact of the bounded [while]; never
                            raised, see [read_blocks_run] *)

(** The two call sites of [err(msg)]. *)
Inductive ErrLine : Type :=
| FileSizeTooSmall
| InvalidAddress (address expected : Z).

Record Block : Type := mkBlock
  { address : Z; size : Z; is_reuseable : bool; is_free : bool }.

(** The global cursor [index], the lines printed through [err], and a ghost
    log of the slices [read_bytes] took, as (start, requested size). *)
Record State : Type := mkState
  { index : nat; reads : list (nat * nat); errs : list ErrLine }.

Definition init : State := {| index := 0; reads := []; errs := [] |}.

Definition M (A : Type) : Type := State -> Result Exception A * State.

Definition ret {A} (a : A) : M A := fun st => (Ok a, st).
Definition raise {A} (e : Exception) : M A := fun st => (Raise e, st).
Definition bind {A B} (m : M A) (k : A -> M B) : M B :=
  fun st =>
    match m st with
    | (Ok a, st') => k a st'
    | (Raise e, st') => (Raise e, st')
    end.

Notation "x <- m ;; k" := (bind m (fun x => k))
  (at level 61, m at next level, right associativity).
Notation "m ;;; k" := (bind m (fun _ => k))
  (at level 61, right associativity).

Definition err (line : ErrLine) : M unit :=
  fun st =>
    (Ok tt, {| index := index st; reads := reads st;
               errs := errs st ++ [line] |}).

(** [TEST_ALLOCATOR_SIGN = int.from_bytes(b"TEST", "little") << 16] *)
Definition TEST_ALLOCATOR_SIGN : Z :=
  Z.shiftl (int_from_bytes_little [x54; x45; x53; x54]) 16.

(** Strict UTF-8 well-formedness, as [bytes.decode('utf-8')] enforces it
    (shortest form only, no surrogates, nothing above U+10FFFF). *)
Definition between (lo hi : Z) (b : byte) : bool :=
  ((lo <=? byte_val b) && (byte_val b <=? hi))%Z.

Definition tail_byte : byte -> bool := between 0x80 0xBF.

Fixpoint utf8_valid (bs : list byte) : bool :=
  match bs with
  | [] => true
  | b0 :: t0 =>
    if between 0x00 0x7F b0 then utf8_valid t0 else
    match t0 with
    | [] => false
    | b1 :: t1 =>
      if between 0xC2 0xDF b0 && tail_byte b1 then utf8_valid t1 else
      match t1 with
      | [] => false
      | b2 :: t2 =>
        if ((between 0xE0 0xE0 b0 && between 0xA0 0xBF b1)
            || (between 0xE1 0xEC b0 && tail_byte b1)
            || (between 0xED 0xED b0 && between 0x80 0x9F b1)
            || (between 0xEE 0xEF b0 && tail_byte b1))
           && tail_byte b2
        then utf8_valid t2 else
        match t2 with
        | [] => false
        | b3 :: t3 =>
          if ((between 0xF0 0xF0 b0 && between 0x90 0xBF b1)
              || (between 0xF1 0xF3 b0 && tail_byte b1)
              || (between 0xF4 0xF4 b0 && between 0x80 0x8F b1))
             && tail_byte b2 && tail_byte b3
          then utf8_valid t3 else false
        end
      end
    end
  end.

Section Script.
(** [data = list(open("COM2.out", "rb").read())], never assigned again. *)
Variable data : list byte.

Definition read_bytes (size : nat) : M (list byte) :=
  fun st =>
    (Ok (slice data (index st) (index st + size)),
     {| index := index st + size;
        reads := reads st ++ [(index st, size)];
        errs := errs st |}).

Definition read_byte : M Z :=
  result <- read_bytes 1 ;;
  match result with
  | [] => raise IndexError
  | b :: _ => ret (byte_val b)
  end.

Definition read_block : M Block :=
  size_bytes <- read_bytes 8 ;;
  let size := int_from_bytes_little size_bytes in
  free_byte <- read_byte ;;
  let is_free := (free_byte =? 1)%Z in
  address_bytes <- read_bytes 8 ;;
  let address := int_from_bytes_little address_bytes in
  reuse_byte <- read_byte ;;
  let is_reuseable := (reuse_byte =? 1)%Z in
  (if negb (Z.land address 0xFFFF000000000000 =? TEST_ALLOCATOR_SIGN)%Z
   then err (InvalidAddress address TEST_ALLOCATOR_SIGN)
   else ret tt) ;;;
  ret (mkBlock address size is_reuseable is_free).

(** [while index+32 < len(data): blocks.append(read_block())] *)
Fixpoint read_blocks (fuel : nat) (blocks : list Block) : M (list Block) :=
  fun st =>
    if index st + 32 <? length data then
      match fuel with
      | O => (Raise FuelExhausted, st)
      | S fuel' =>
        (block <- read_block ;; read_blocks fuel' (blocks ++ [block])) st
      end
    else (Ok blocks, st).

(** The script from its first statement to the end of the [while]; the
    value is the list [blocks]. *)
Definition main : M (list Block) :=
  command <- read_byte ;;
  if negb (command =? 0x01)%Z then raise (SystemExit (-1)) else
  filename_length <- read_byte ;;
  filename <- read_bytes (Z.to_nat filename_length) ;;
  if negb (utf8_valid filename) then raise UnicodeDecodeError else
  size_bytes <- read_bytes 4 ;;
  let file_size := int_from_bytes_little size_bytes in
  (if (file_size >=? Z.of_nat (length data))%Z
   then err FileSizeTooSmall else ret tt) ;;;
  read_blocks (length data) [].

Definition run : Result Exception (list Block) * State := main init.

(** What the loop does, in closed form: the block decoded at cursor [i],
    the slices one [read_block] takes there, the cursors of [n]
    consecutive records, and the state after reading them. *)
Definition block_at (i : nat) : Block :=
  mkBlock (int_from_bytes_little (slice data (i + 9) (i + 17)))
          (int_from_bytes_little (slice data i (i + 8)))
          (byte_val (nth (i + 17) data x00) =? 1)%Z
          (byte_val (nth (i + 8) data x00) =? 1)%Z.

Definition block_reads (i : nat) : list (nat * nat) :=
  [(i, 8); (i + 8, 1); (i + 9, 8); (i + 17, 1)].

Fixpoint cursors (i n : nat) : list nat :=
  match n with
  | O => []
  | S n' => i :: cursors (i + 18) n'
  end.

Definition after_blocks (st : State) (n : nat) : State :=
  {| index := index st + 18 * n;
     reads := reads st ++ flat_map block_reads (cursors (index st) n);
     errs := errs st ++
             map (fun c => InvalidAddress (address (block_at c))
                                          TEST_ALLOCATOR_SIGN)
                 (cursors (index st) n) |}.

(** A logged slice that lies inside the buffer. *)
Definition in_bounds (r : nat * nat) : Prop := fst r + snd r <= length data.
End Script.

(** The stream of the spec's framed-decode example: the header
    [0x01, 0x03, 'a', 'b', 'c'], a file size, and two 18-byte records. *)
Definition record_18 : list byte :=
  [x10; x00; x00; x00; x00; x00; x00; x00; x01;
   x00; x10; x54; x45; x53; x54; x00; x00; x00].

Definition two_record_stream : list byte :=
  [x01; x03; x61; x62; x63; x24; x00; x00; x00] ++ record_18 ++ record_18.

(** A stream with an empty file name and one record whose address is
    [TEST_ALLOCATOR_SIGN] itself, followed by 15 more bytes so that the
    loop reads the record. *)
Definition signed_record : list byte :=
  [x10; x00; x00; x00; x00; x00; x00; x00; x01;
   x00; x00; x54; x45; x53; x54; x00; x00; x00].

Definition signed_stream : list byte :=
  [x01; x00; x12; x00; x00; x00] ++ signed_record ++ repeat x00 15.

(** The same stream with the one-byte file name [0xFF], which is not
    UTF-8. *)
Definition bad_name_stream : list byte :=
  [x01; x01; xff; x12; x00; x00; x00] ++ signed_record ++ repeat x00 15.

(** The same stream with the three-byte file name "abc". *)
Definition named_stream : list byte :=
  [x01; x03; x61; x62; x63; x12; x00; x00; x00]
    ++ signed_record ++ repeat x00 15.

(** The header fields as the script reads them: the file name length at
    offset 1, the file name after it, and the four bytes of the file size. *)
Definition name_length (data : list byte) : nat :=
  Z.to_nat (byte_val (nth 1 data x00)).

Definition filename (data : list byte) : list byte :=
  slice data 2 (2 + name_length data).

Definition file_size (data : list byte) : Z :=
  int_from_bytes_little
    (slice data (2 + name_length data) (2 + name_length data + 4)).

(** A buffer whose header the script gets past: the two bytes read with
    [read_byte] are there, the command is 0x01, the file name decodes. *)
Definition accepted (data : list byte) : Prop :=
  2 <= length data
  /\ byte_val (nth 0 data x00) = 1%Z
  /\ utf8_valid (filename data) = true.

(** Logged slices that follow one another without a gap or an overlap,
    from offset [start] to offset [stop]. *)
Fixpoint chained (start : nat) (rs : list (nat * nat)) (stop : nat) : Prop :=
  match rs with
  | [] => start = stop
  | (s, n) :: rest => s = start /\ chained (start + n) rest stop
  end.

(** The number of iterations of the loop from cursor [i] on [len] bytes. *)
Definition record_count (len i : nat) : nat :=
  if i + 32 <? len then (len - i - 33) / 18 + 1 else 0.

End RawSerial.

(** ** tools/parse_heap_raw.py *)
Module HeapRaw.

Inductive Exception : Type :=
| AssertionError   (* [assert len(self.bytes) % 0x20 == 0] *)
| IndexError.      (* [buf[8]], [buf[17]] on a short chunk *)

Record Block : Type := mkBlock
  { size : Z; is_free : bool; addr : Z; is_reuseable : bool }.

(** [bool(b)] for an integer [b]. *)
Definition truthy (b : byte) : bool := negb (byte_val b =? 0)%Z.

(** [range(0, stop, 0x20)] *)
Definition range_0x20 (stop : nat) : list nat :=
  map (fun k => 32 * k) (seq 0 ((stop + 31) / 32)).

(** The body of the [for] loop of [parse], on [buf = self.bytes[i:i+0x20]]. *)
Definition parse_chunk (buf : list byte) : Result Exception Block :=
  let size := int_from_bytes_little (slice buf 0 8) in
  match nth_error buf 8 with
  | None => Raise IndexError
  | Some b8 =>
    let is_free := truthy b8 in
    let addr := int_from_bytes_little (slice buf 9 17) in
    match nth_error buf 17 with
    | None => Raise IndexError
    | Some b17 =>
      let is_reuseable := truthy b17 in
      Ok (mkBlock size is_free addr is_reuseable)
    end
  end.

Fixpoint parse_loop (bytes : list byte) (starts : list nat)
         (blocks : list Block) : Result Exception (list Block) :=
  match starts with
  | [] => Ok blocks
  | i :: rest =>
    match parse_chunk (slice bytes i (i + 32)) with
    | Ok block => parse_loop bytes rest (blocks ++ [block])
    | Raise e => Raise e
    end
  end.

Definition parse (bytes : list byte) : Result Exception (list Block) :=
  parse_loop bytes (range_0x20 (length bytes)) [].

(** [HeapRepr(filename)], on the content of the file; the value is
    [self.blocks]. *)
Definition HeapRepr (bytes : list byte) : Result Exception (list Block) :=
  if length bytes mod 32 =? 0 then parse bytes else Raise AssertionError.

(** [self.bytes[i:i+0x20]] for the k-th [i] of the range. *)
Definition chunk (bytes : list byte) (k : nat) : list byte :=
  slice bytes (32 * k) (32 * k + 32).

(** The block the loop body builds from a chunk that has its 18 bytes. *)
Definition block_of_chunk (buf : list byte) : Block :=
  mkBlock (int_from_bytes_little (slice buf 0 8)) (truthy (nth 8 buf x00))
          (int_from_bytes_little (slice buf 9 17))
          (truthy (nth 17 buf x00)).

(** Modelled from the spec: the re-encoding of the round-trip property.
    The repository has no encoder; this one follows the layout table of
    the specification:
    size as LE u64 at [0,8), is_free at byte 8, address as LE u64 at
    [9,17), is_reusable at byte 17, booleans as 0/1, reserved bytes zero. *)
Definition byte_of_Z (z : Z) : byte :=
  match Byte.of_N (Z.to_N z) with
  | Some b => b
  | None => x00
  end.

Fixpoint int_to_bytes_little (n : nat) (v : Z) : list byte :=
  match n with
  | O => []
  | S n' => byte_of_Z (v mod 256) :: int_to_bytes_little n' (v / 256)
  end.

Definition bool_byte (b : bool) : byte := if b then x01 else x00.

Definition spec_encode (b : Block) : list byte :=
  int_to_bytes_little 8 (size b) ++ [bool_byte (is_free b)] ++
  int_to_bytes_little 8 (addr b) ++ [bool_byte (is_reuseable b)] ++
  repeat x00 14.

(** A flag byte that is already 0 or 1. *)
Definition flag_byte (b : byte) : Prop := b = x00 \/ b = x01.

(** One 32-byte record whose [is_free] byte is 2. *)
Definition chunk_flag_2 : list byte :=
  [x10; x00; x00; x00; x00; x00; x00; x00; x02;
   x00; x10; x00; x00; x00; x00; x00; x00; x00] ++ repeat x00 14.

(** A block whose two integers fit the 8-byte fields. *)
Definition u64_fields (b : Block) : Prop := u64 (size b) /\ u64 (addr b).

(** [chunk_flag_2] with other bytes in the reserved region. *)
Definition chunk_flag_2_padded : list byte :=
  firstn 18 chunk_flag_2 ++ repeat xff 14.

End HeapRaw.

(** ** tools/sort_block_output.py *)
Module SortBlocks.

Record Block : Type := mkBlock
  { id : nat; address : Z; size : Z; is_allocated : bool; is_free : bool }.

Definition is_next_to (self other : Block) : bool :=
  let self_end := (address self + size self)%Z in
  ((self_end =? address other)
   || (address self =? address other + size other))%Z.

Definition contains_address (self : Block) (a : Z) : bool :=
  ((address self <=? a) && (a <? address self + size self))%Z.

(** A CSV row after the header is dropped and the columns are converted:
    [int(x[0], 16), int(x[1]), x[2] == "true", x[3] == "true"]. *)
Definition Row : Type := (Z * Z * bool * bool)%type.

(** [enumerate] *)
Definition enumerate {A : Type} (l : list A) : list (nat * A) :=
  combine (seq 0 (length l)) l.

(** The constructor call of line 29, on the unpacked row
    [x = [i, block_num, size, is_allocated, is_free]]. *)
Definition block_of (x : nat * Row) : Block :=
  let '(i, (block_num, size, is_allocated, is_free)) := x in
  mkBlock i block_num size is_allocated is_free.

(** *** The object store

    [Block] objects and Python lists are mutable and shared by reference:
    a list holds references to [Block]s, and the variables [data] and
    [sorted_data] hold references to lists. *)
Definition ref : Type := nat.
Definition lref : Type := nat.

Record Store : Type := mkStore
  { objects : list Block; lists : list (list ref) }.

Definition empty : Store := {| objects := []; lists := [] |}.

Definition dummy : Block := mkBlock 0 0 0 false false.

Definition deref (s : Store) (r : ref) : Block := nth r (objects s) dummy.
Definition get_list (s : Store) (l : lref) : list ref := nth l (lists s) [].

Fixpoint update {A : Type} (n : nat) (v : A) (l : list A) : list A :=
  match l, n with
  | [], _ => []
  | _ :: t, O => v :: t
  | a :: t, S n' => a :: update n' v t
  end.

Definition set_list (s : Store) (l : lref) (v : list ref) : Store :=
  {| objects := objects s; lists := update l v (lists s) |}.

Definition new_block (b : Block) (s : Store) : ref * Store :=
  (length (objects s), {| objects := objects s ++ [b]; lists := lists s |}).

Definition new_list (v : list ref) (s : Store) : lref * Store :=
  (length (lists s), {| objects := objects s; lists := lists s ++ [v] |}).

(** The list comprehension of line 29: one new object per row, in order. *)
Fixpoint new_blocks (xs : list (nat * Row)) (s : Store)
  : list ref * Store :=
  match xs with
  | [] => ([], s)
  | x :: rest =>
    let (r, s1) := new_block (block_of x) s in
    let (rs, s2) := new_blocks rest s1 in
    (r :: rs, s2)
  end.

(** [l.copy()]: a new list holding the same references. *)
Definition list_copy (l : lref) (s : Store) : lref * Store :=
  new_list (get_list s l) s.

(** [list.sort(key=...)] is stable: elements with equal keys keep their
    order. Any stable sort yields the same list; this one inserts from the
    right, each element before the first one whose key is not smaller. *)
Fixpoint insert_by {A : Type} (key : A -> Z) (x : A) (l : list A) : list A :=
  match l with
  | [] => [x]
  | y :: l' =>
    if (key x <=? key y)%Z then x :: y :: l' else y :: insert_by key x l'
  end.

Definition sort_by {A : Type} (key : A -> Z) (l : list A) : list A :=
  fold_right (insert_by key) [] l.

(** [l.sort(key=lambda x: x.address)], in place. *)
Definition list_sort (l : lref) (s : Store) : Store :=
  set_list s l (sort_by (fun r => address (deref s r)) (get_list s l)).

(** The three [print] statements of the report loop. *)
Inductive Line : Type :=
| NextTo (block other : Block)  (* "Block {block} is next to block {other}" *)
| NotNextToAny (block : Block). (* "... is not next to any other block" *)

(** One iteration of [for i in range(len(sorted_data))], on the blocks
    [sorted_data] refers to. *)
Definition report_line (sd : list Block) (i : nat) : Line :=
  let last_block := if 0 <? i then nth_error sd (i - 1) else None in
  let block := nth i sd dummy in
  let next_block :=
    if i <? length sd - 1 then nth_error sd (i + 1) else None in
  let after_last :=
    match next_block with
    | Some nb =>
      if is_next_to block nb then NextTo block nb else NotNextToAny block
    | None => NotNextToAny block
    end in
  match last_block with
  | Some lb => if is_next_to lb block then NextTo block lb else after_last
  | None => after_last
  end.

Definition report (s : Store) (sorted_data : lref) : list Line :=
  let sd := map (deref s) (get_list s sorted_data) in
  map (report_line sd) (seq 0 (length sd)).

(** What the script prints from line 36 on: the answer to "Does sorted
    data match original data?" ([sorted_data == data] compares the two
    lists reference by reference) and the report lines. *)
Record Output : Type := mkOutput
  { matches_original : bool; lines : list Line }.

(** Lines 31 to 49: the analysis of the list [data] refers to. It returns
    the output, the final store and the reference held by [sorted_data]. *)
Definition analyze (data : lref) (s : Store) : Output * Store * lref :=
  let (sorted_data, s1) := list_copy data s in
  let s2 := list_sort sorted_data s1 in
  let same :=
    if list_eq_dec Nat.eq_dec (get_list s2 sorted_data) (get_list s2 data)
    then true else false in
  (mkOutput same (report s2 sorted_data), s2, sorted_data).

(** Line 29: the [Block] objects and the list [data]. *)
Definition load (rows : list Row) : lref * Store :=
  let (rs, s) := new_blocks (enumerate rows) empty in
  new_list rs s.

Definition script (rows : list Row) : Output * Store * lref :=
  let (data, s) := load rows in analyze data s.

(** The blocks of line 29, in input order. *)
Definition blocks_of (rows : list Row) : list Block :=
  map block_of (enumerate rows).

(** The blocks in the order of the sorted list. *)
Definition sorted_blocks (rows : list Row) : list Block :=
  let '(_, s, sorted_data) := script rows in
  map (deref s) (get_list s sorted_data).

(** [x] occurs in [l] at a position before an occurrence of [y]. *)
Inductive Before {A : Type} (x y : A) : list A -> Prop :=
| Before_here (l : list A) : In y l -> Before x y (x :: l)
| Before_later (a : A) (l : list A) : Before x y l -> Before x y (a :: l).

(** What a report line says, by addresses: the block, and the block it is
    next to if any. *)
Definition line_summary (l : Line) : Z * option Z :=
  match l with
  | NextTo block other => (address block, Some (address other))
  | NotNextToAny block => (address block, None)
  end.

Definition line_block (l : Line) : Block :=
  match l with
  | NextTo block _ => block
  | NotNextToAny block => block
  end.

(** Two rows with the same address. *)
Definition equal_address_rows : list Row :=
  [(5, 3, true, false); (5, 3, false, true)]%Z.

(** The report lines the script prints for [rows]. *)
Definition lines_of (rows : list Row) : list Line :=
  lines (fst (fst (script rows))).

(** Addresses in non-decreasing order. *)
Definition address_le (a b : Block) : Prop := (address a <= address b)%Z.

(** [self.address + self.size], the end of the block. *)
Definition block_end (b : Block) : Z := (address b + size b)%Z.

(** Two blocks whose ranges [address, end) do not overlap. *)
Definition apart (a b : Block) : Prop :=
  (block_end a <= address b \/ block_end b <= address a)%Z.

(** Rows B, A, C of three blocks, A and B touching. *)
Definition touching_rows : list Row :=
  [(10, 5, false, true); (0, 10, true, false); (100, 1, false, false)]%Z.

(** Two rows of blocks that are apart and do not touch. *)
Definition spaced_rows : list Row :=
  [(20, 5, true, false); (0, 10, true, false)]%Z.

End SortBlocks.

(** * Properties *)

Arguments byte_val : simpl never.

(** ** Slices *)

Lemma skipn_nth {A : Type} (d : A) (l : list A) : forall i,
  i < length l -> skipn i l = nth i l d :: skipn (S i) l.
Proof.
  induction l as [|a l IH]; intros [|i] H; simpl in *; try lia; auto.
  apply IH. lia.
Qed.

Lemma slice_length {A : Type} (l : list A) (i n : nat) :
  i + n <= length l -> length (slice l i (i + n)) = n.
Proof.
  intros H. unfold slice. rewrite length_firstn, length_skipn. lia.
Qed.

Lemma slice_one {A : Type} (d : A) (l : list A) (i : nat) :
  i < length l -> slice l i (i + 1) = [nth i l d].
Proof.
  intros H. unfold slice. replace (i + 1 - i) with 1 by lia.
  rewrite (skipn_nth d) by assumption. reflexivity.
Qed.

Lemma nth_slice {A : Type} (d : A) (l : list A) (i n j : nat) :
  j < n -> nth j (slice l i (i + n)) d = nth (i + j) l d.
Proof.
  intros H. unfold slice. rewrite nth_firstn, nth_skipn.
  replace (j <? i + n - i) with true; [reflexivity|].
  symmetry. apply Nat.ltb_lt. lia.
Qed.

Lemma slice_slice {A : Type} (l : list A) (i n a b : nat) :
  b <= n -> slice (slice l i (i + n)) a b = slice l (i + a) (i + b).
Proof.
  intros H. unfold slice.
  rewrite skipn_firstn_comm, firstn_firstn, skipn_skipn.
  f_equal; [lia|]. f_equal. lia.
Qed.

Lemma byte_val_range (b : byte) : (0 <= byte_val b < 256)%Z.
Proof.
  unfold byte_val. pose proof (Byte.to_N_bounded b). lia.
Qed.

Lemma int_from_bytes_bound (bs : list byte) :
  (0 <= int_from_bytes_little bs < 256 ^ Z.of_nat (length bs))%Z.
Proof.
  induction bs as [|b bs IH]; [cbn; lia|].
  cbn [int_from_bytes_little length].
  rewrite Nat2Z.inj_succ, Z.pow_succ_r by lia.
  pose proof (byte_val_range b). lia.
Qed.

(** An integer read from at most 8 bytes is an unsigned 64-bit value. *)
Lemma int_from_slice_u64 {data : list byte} (i j : nat) :
  j - i <= 8 -> u64 (int_from_bytes_little (slice data i j)).
Proof.
  intros Hij. unfold u64.
  pose proof (int_from_bytes_bound (slice data i j)) as Hb.
  assert (Hl : length (slice data i j) <= 8)
    by (unfold slice; rewrite length_firstn; lia).
  assert (256 ^ Z.of_nat (length (slice data i j)) <= 256 ^ 8)%Z
    by (apply Z.pow_le_mono_r; lia).
  change (2 ^ 64)%Z with (256 ^ 8)%Z. lia.
Qed.

Lemma byte_val_inj (a b : byte) : byte_val a = byte_val b -> a = b.
Proof.
  unfold byte_val. intros H. apply N2Z.inj in H.
  pose proof (Byte.of_to_N a) as Ha. rewrite H, Byte.of_to_N in Ha.
  congruence.
Qed.

(** ** The framed serial dump *)
Module RawSerialFacts.
Import RawSerial.

(** Closes [Forall (in_bounds data) [r1; ..; rk]] for explicit slices. *)
Ltac slices_in_bounds :=
  repeat (apply Forall_cons;
          [unfold in_bounds; cbn [fst snd length]; lia|]);
  apply Forall_nil.

(** The mask keeps bits 48 to 63 only, and the signature has bit 18 set:
    the comparison of [read_block] is false for every address. *)
Lemma signature_check_never_passes (a : Z) :
  (Z.land a 0xFFFF000000000000 =? TEST_ALLOCATOR_SIGN)%Z = false.
Proof.
  apply Z.eqb_neq. intros H.
  apply (f_equal (fun z => Z.testbit z 18)) in H.
  rewrite Z.land_spec in H.
  change (Z.testbit 0xFFFF000000000000 18) with false in H.
  rewrite andb_false_r in H. vm_compute in H. discriminate.
Qed.

Section Loop.
Variable data : list byte.

Lemma read_byte_ok st :
  index st < length data ->
  read_byte data st =
  (Ok (byte_val (nth (index st) data x00)),
   {| index := index st + 1; reads := reads st ++ [(index st, 1)];
      errs := errs st |}).
Proof.
  intros H. unfold read_byte, bind, read_bytes.
  rewrite (slice_one x00) by assumption. reflexivity.
Qed.

(** With 18 bytes left, [read_block] returns the block at the cursor,
    advances the cursor by 18 and prints the address complaint. *)
Lemma read_block_ok st :
  index st + 18 <= length data ->
  read_block data st =
  (Ok (block_at data (index st)),
   {| index := index st + 18;
      reads := reads st ++ block_reads (index st);
      errs := errs st ++
              [InvalidAddress (address (block_at data (index st)))
                              TEST_ALLOCATOR_SIGN] |}).
Proof.
  intros H. unfold read_block.
  unfold bind at 1. unfold read_bytes at 1.
  unfold bind at 1. rewrite read_byte_ok by (simpl; lia).
  unfold bind at 1. unfold read_bytes at 1.
  unfold bind at 1. rewrite read_byte_ok by (simpl; lia).
  cbn [index reads errs].
  rewrite signature_check_never_passes. cbn [negb].
  unfold bind, err, ret. cbn [index reads errs].
  unfold block_at, block_reads. cbn [address].
  replace (index st + 8 + 1) with (index st + 9) by lia.
  replace (index st + 9 + 8) with (index st + 17) by lia.
  replace (index st + 17 + 1) with (index st + 18) by lia.
  repeat rewrite <- app_assoc. reflexivity.
Qed.

Lemma after_blocks_0 st : after_blocks data st 0 = st.
Proof.
  unfold after_blocks. destruct st as [i r e]. cbn.
  now rewrite !app_nil_r, Nat.add_0_r.
Qed.

Lemma read_blocks_stop fuel blocks st :
  length data <= index st + 32 ->
  read_blocks data fuel blocks st = (Ok blocks, st).
Proof.
  intros H. apply Nat.ltb_ge in H.
  destruct fuel; cbn [read_blocks]; now rewrite H.
Qed.

Lemma read_blocks_step fuel blocks st :
  index st + 32 < length data ->
  read_blocks data (S fuel) blocks st =
  read_blocks data fuel (blocks ++ [block_at data (index st)])
    {| index := index st + 18;
       reads := reads st ++ block_reads (index st);
       errs := errs st ++
               [InvalidAddress (address (block_at data (index st)))
                               TEST_ALLOCATOR_SIGN] |}.
Proof.
  intros H. cbn [read_blocks].
  apply Nat.ltb_lt in H as G. rewrite G. unfold bind.
  rewrite read_block_ok by lia. reflexivity.
Qed.

(** The loop, run with enough fuel, ends normally after some number [n]
    of records: it has appended the [n] blocks at the cursors
    [i, i+18, ...], every one of them was read with more than 32 bytes
    left, and at most 32 bytes are left at the end. *)
Lemma read_blocks_run : forall fuel blocks st,
  length data <= index st + fuel ->
  exists n,
    read_blocks data fuel blocks st =
      (Ok (blocks ++ map (block_at data) (cursors (index st) n)),
       after_blocks data st n)
    /\ length data <= index st + 18 * n + 32
    /\ Forall (fun c => c + 32 < length data) (cursors (index st) n).
Proof.
  induction fuel as [|fuel IH]; intros blocks st Hfuel.
  - exists 0. rewrite read_blocks_stop, after_blocks_0 by lia.
    cbn. rewrite app_nil_r. repeat split; auto; lia.
  - destruct (Nat.lt_ge_cases (index st + 32) (length data)) as [G|G].
    + rewrite read_blocks_step by assumption.
      match goal with |- context [read_blocks data fuel ?b ?s] =>
        destruct (IH b s) as (n & Hrun & Hstop & Hguard) end.
      { cbn [index]. lia. }
      cbn [index] in Hrun, Hstop, Hguard.
      exists (S n). rewrite Hrun. repeat split.
      * unfold after_blocks. cbn [index reads errs cursors map flat_map].
        rewrite <- !app_assoc. cbn [app].
        do 2 f_equal. lia.
      * lia.
      * cbn [cursors]. constructor; assumption.
    + exists 0. rewrite read_blocks_stop, after_blocks_0 by lia.
      cbn. rewrite app_nil_r. repeat split; auto; lia.
Qed.

(** The slices of guarded records lie inside the buffer. *)
Lemma guarded_reads_in_bounds (cs : list nat) :
  Forall (fun c => c + 32 < length data) cs ->
  Forall (in_bounds data) (flat_map block_reads cs).
Proof.
  induction 1 as [|c cs Hc _ IH]; cbn [flat_map]; [constructor|].
  apply Forall_app. split; [|exact IH].
  unfold block_reads. slices_in_bounds.
Qed.

(** The script after the command byte was accepted. *)
Lemma main_after_command :
  2 <= length data ->
  byte_val (nth 0 data x00) = 1%Z ->
  let L := Z.to_nat (byte_val (nth 1 data x00)) in
  let filename := slice data 2 (2 + L) in
  let file_size := int_from_bytes_little (slice data (2 + L) (2 + L + 4)) in
  run data =
  if utf8_valid filename then
    read_blocks data (length data) []
      {| index := 2 + L + 4;
         reads := [(0, 1); (1, 1); (2, L); (2 + L, 4)];
         errs := if (file_size >=? Z.of_nat (length data))%Z
                 then [FileSizeTooSmall] else [] |}
  else
    (Raise UnicodeDecodeError,
     {| index := 2 + L; reads := [(0, 1); (1, 1); (2, L)]; errs := [] |}).
Proof.
  intros Hlen Hcmd L filename file_size.
  unfold run, main.
  unfold bind at 1. rewrite read_byte_ok by (cbn; lia).
  cbn [index reads errs init app]. rewrite Hcmd. cbn [Z.eqb Pos.eqb negb].
  unfold bind at 1. rewrite read_byte_ok by (cbn; lia).
  cbn [index reads errs app Nat.add].
  unfold bind at 1. unfold read_bytes at 1.
  cbn [index reads errs app Nat.add].
  fold L. change (S (S L)) with (2 + L). fold filename.
  destruct (utf8_valid filename); cbn [negb]; [|reflexivity].
  unfold bind at 1. unfold read_bytes at 1.
  cbn [index reads errs app]. fold file_size.
  destruct (file_size >=? Z.of_nat (length data))%Z;
    unfold bind, err, ret; cbn [index reads errs app]; reflexivity.
Qed.

End Loop.

(** The script when the command byte is refused. *)
Lemma main_bad_command (b : byte) (rest : list byte) :
  byte_val b <> 1%Z ->
  run (b :: rest) =
  (Raise (SystemExit (-1)),
   {| index := 1; reads := [(0, 1)]; errs := [] |}).
Proof.
  intros Hb. unfold run, main.
  unfold bind at 1. rewrite read_byte_ok by (cbn; lia).
  cbn [index reads errs init nth app Nat.add].
  destruct (Z.eqb_spec (byte_val b) 1); [contradiction|]. reflexivity.
Qed.

(** C1 (as stated, refuted). On the 45-byte stream made of the header
    [0x01, 0x03, 'a', 'b', 'c', file_size] and two 18-byte records, the
    script does not end with two decoded blocks. *)
Lemma C1_two_records_not_decoded :
  ~ exists blocks st,
      run two_record_stream = (Ok blocks, st) /\ length blocks = 2.
Proof.
  intros (blocks & st & H & Hlen).
  vm_compute in H. inversion H; subst. discriminate Hlen.
Qed.

(** C1 (amended). The loop reads a record only while more than 32 bytes
    remain past the cursor, and each record takes 18 bytes. So on the
    header [0x01, 0x03, 'a', 'b', 'c', file_size] followed by two 18-byte
    records (45 bytes) the script ends normally with exactly one block,
    the cursor at 27. In general, from any cursor the loop ends normally:
    it stops as soon as 32 bytes or fewer remain, every record it decoded
    was read with more than 32 bytes remaining, and the bytes left over
    are dropped without an error. *)
Theorem C1_decode_stops_at_32_remaining :
  (forall (f0 f1 f2 f3 : byte) (records : list byte),
      length records = 36 ->
      exists block st,
        run ([x01; x03; x61; x62; x63; f0; f1; f2; f3] ++ records)
        = (Ok [block], st)
        /\ index st = 27)
  /\ (forall (data : list byte) (blocks : list Block) (st : State),
      exists n,
        read_blocks data (length data) blocks st
        = (Ok (blocks ++ map (block_at data) (cursors (index st) n)),
           after_blocks data st n)
        /\ length data <= index (after_blocks data st n) + 32
        /\ Forall (fun c => c + 32 < length data) (cursors (index st) n)).
Proof.
  split.
  - intros f0 f1 f2 f3 records Hrec.
    set (data := _ ++ records).
    assert (Hlen : length data = 45).
    { unfold data. rewrite length_app, Hrec. reflexivity. }
    assert (Hcmd : byte_val (nth 0 data x00) = 1%Z) by reflexivity.
    pose proof (main_after_command data ltac:(lia) Hcmd) as Hmain.
    cbv zeta in Hmain.
    change (Z.to_nat (byte_val (nth 1 data x00))) with 3 in Hmain.
    change (slice data 2 (2 + 3)) with [x61; x62; x63] in Hmain.
    change (utf8_valid [x61; x62; x63]) with true in Hmain.
    cbv iota in Hmain. rewrite Hmain.
    match goal with |- context [read_blocks data _ [] ?s] =>
      destruct (read_blocks_run data (length data) [] s ltac:(lia))
        as (n & Hrun & Hstop & Hguard) end.
    cbn [index] in Hrun, Hstop, Hguard.
    destruct n as [|[|n]].
    + lia.
    + rewrite Hrun. cbn [cursors map app]. eexists _, _.
      split; [reflexivity|]. reflexivity.
    + cbn [cursors] in Hguard. inversion Hguard as [|? ? _ H2]; subst.
      inversion H2 as [|? ? H3 _]; subst. lia.
  - intros data blocks st.
    destruct (read_blocks_run data (length data) blocks st ltac:(lia))
      as (n & Hrun & Hstop & Hguard).
    exists n. repeat split; try assumption.
Qed.

Lemma C1_decode_stops_at_32_remaining_witness :
  exists block st,
    run ([x01; x03; x61; x62; x63; x24; x00; x00; x00]
           ++ (record_18 ++ record_18))
    = (Ok [block], st)
    /\ index st = 27.
Proof.
  apply (proj1 C1_decode_stops_at_32_remaining). reflexivity.
Defined.


(** C6 (as stated, refuted). With the file name [0xFF] the script stops
    at the [decode] call with an uncaught [UnicodeDecodeError]: nothing was
    printed through [err], the file size and the record that follow are
    never read. *)
Lemma C6_invalid_name_aborts :
  run bad_name_stream =
  (Raise UnicodeDecodeError,
   {| index := 3; reads := [(0, 1); (1, 1); (2, 1)]; errs := [] |}).
Proof. vm_compute. reflexivity. Qed.

(** C6 (amended). After an accepted command byte and the length byte [L],
    with the [L] bytes present, exactly the [L] bytes at [2, 2+L) are read
    as the file name. If they are not valid UTF-8 the script stops there
    with [UnicodeDecodeError], no warning and no block. If they are valid
    UTF-8 decoding continues: the four bytes at [2+L, 6+L) are read as the
    file size, the record loop runs from offset 6+L, and the run ends
    normally with the blocks decoded at 6+L, 6+L+18, ..., each read with
    more than 32 bytes left, and at most 32 bytes left at the end. *)
Theorem C6_filename_decode :
  forall data : list byte,
    byte_val (nth 0 data x00) = 1%Z ->
    let L := Z.to_nat (byte_val (nth 1 data x00)) in
    2 + L <= length data ->
    let filename := slice data 2 (2 + L) in
    length filename = L
    /\ (utf8_valid filename = false ->
        run data =
        (Raise UnicodeDecodeError,
         {| index := 2 + L; reads := [(0, 1); (1, 1); (2, L)];
            errs := [] |}))
    /\ (utf8_valid filename = true ->
        exists n,
          run data =
          (Ok (map (block_at data) (cursors (2 + L + 4) n)),
           {| index := 2 + L + 4 + 18 * n;
              reads := [(0, 1); (1, 1); (2, L); (2 + L, 4)]
                       ++ flat_map block_reads (cursors (2 + L + 4) n);
              errs := (if (int_from_bytes_little
                             (slice data (2 + L) (2 + L + 4))
                           >=? Z.of_nat (length data))%Z
                       then [FileSizeTooSmall] else [])
                      ++ map (fun c =>
                                InvalidAddress (address (block_at data c))
                                               TEST_ALLOCATOR_SIGN)
                             (cursors (2 + L + 4) n) |})
          /\ length data <= 2 + L + 4 + 18 * n + 32
          /\ Forall (fun c => c + 32 < length data)
                    (cursors (2 + L + 4) n)).
Proof.
  intros data Hcmd L Hfit filename.
  pose proof (main_after_command data ltac:(lia) Hcmd) as Hmain.
  cbv zeta in Hmain. fold L in Hmain. fold filename in Hmain.
  split; [|split].
  - apply slice_length. exact Hfit.
  - intros Hbad. rewrite Hmain, Hbad. reflexivity.
  - intros Hgood. rewrite Hmain, Hgood.
    match goal with |- context [read_blocks data _ [] ?s] =>
      destruct (read_blocks_run data (length data) [] s ltac:(lia))
        as (n & Hrun & Hstop & Hguard) end.
    cbn [index] in Hrun, Hstop, Hguard.
    exists n. rewrite Hrun. unfold after_blocks. cbn [index reads errs app].
    split; [reflexivity|]. split; assumption.
Qed.

Lemma C6_filename_decode_witness :
  let data := named_stream in
  let L := 3 in
  let filename := slice data 2 (2 + L) in
  length filename = L
  /\ (utf8_valid filename = false ->
      run data =
      (Raise UnicodeDecodeError,
       {| index := 2 + L; reads := [(0, 1); (1, 1); (2, L)];
          errs := [] |}))
  /\ (utf8_valid filename = true ->
      exists n,
        run data =
        (Ok (map (block_at data) (cursors (2 + L + 4) n)),
         {| index := 2 + L + 4 + 18 * n;
            reads := [(0, 1); (1, 1); (2, L); (2 + L, 4)]
                     ++ flat_map block_reads (cursors (2 + L + 4) n);
            errs := (if (int_from_bytes_little
                           (slice data (2 + L) (2 + L + 4))
                         >=? Z.of_nat (length data))%Z
                     then [FileSizeTooSmall] else [])
                    ++ map (fun c =>
                              InvalidAddress (address (block_at data c))
                                             TEST_ALLOCATOR_SIGN)
                           (cursors (2 + L + 4) n) |})
        /\ length data <= 2 + L + 4 + 18 * n + 32
        /\ Forall (fun c => c + 32 < length data)
                  (cursors (2 + L + 4) n)).
Proof.
  apply (C6_filename_decode named_stream).
  - reflexivity.
  - vm_compute. lia.
Defined.

(** C7. A stream whose first byte is not 0x01 makes the script print
    "Invalid command" and exit with status -1: only the byte at offset 0
    was read, whatever follows it, and no list of blocks is produced. *)
Theorem C7_unrecognized_command_is_fatal :
  forall (b : byte) (rest : list byte),
    byte_val b <> 1%Z ->
    run (b :: rest) =
    (Raise (SystemExit (-1)),
     {| index := 1; reads := [(0, 1)]; errs := [] |}).
Proof.
  intros b rest Hb. now apply main_bad_command.
Qed.

Lemma C7_unrecognized_command_is_fatal_witness :
  run (x02 :: signed_record) =
  (Raise (SystemExit (-1)),
   {| index := 1; reads := [(0, 1)]; errs := [] |}).
Proof.
  apply (C7_unrecognized_command_is_fatal x02 signed_record).
  vm_compute. discriminate.
Defined.

(** C10. When the buffer holds the whole header (6 bytes plus the file
    name), every slice the script takes, in the header and in the record
    loop, lies inside the buffer: a record is read only with more than 32
    bytes left and takes 18. *)
Theorem C10_reads_within_buffer :
  forall data : list byte,
    6 + Z.to_nat (byte_val (nth 1 data x00)) <= length data ->
    Forall (in_bounds data) (reads (snd (run data))).
Proof.
  intros data Hfit.
  destruct (Z.eq_dec (byte_val (nth 0 data x00)) 1) as [Hcmd|Hcmd].
  - rewrite (main_after_command data ltac:(lia) Hcmd). cbv zeta.
    destruct (utf8_valid _).
    + match goal with |- context [read_blocks data _ [] ?s] =>
        destruct (read_blocks_run data (length data) [] s ltac:(lia))
          as (n & Hrun & _ & Hguard) end.
      rewrite Hrun. cbn [snd after_blocks reads index].
      apply Forall_app. split.
      * slices_in_bounds.
      * apply guarded_reads_in_bounds. exact Hguard.
    + cbn [snd reads]. slices_in_bounds.
  - destruct data as [|b rest]; [cbn in Hfit; lia|].
    rewrite (main_bad_command b rest Hcmd).
    cbn [snd reads]. cbn [length] in Hfit. slices_in_bounds.
Qed.

Lemma C10_reads_within_buffer_witness :
  Forall (in_bounds signed_stream) (reads (snd (run signed_stream))).
Proof.
  apply (C10_reads_within_buffer signed_stream). vm_compute. lia.
Defined.

End RawSerialFacts.

(** ** The raw heap file *)
Module HeapRawFacts.
Import HeapRaw.

Lemma byte_of_Z_val (b : byte) : byte_of_Z (byte_val b) = b.
Proof.
  unfold byte_of_Z, byte_val. rewrite N2Z.id, Byte.of_to_N. reflexivity.
Qed.

(** Writing back the little-endian value of [n] bytes gives the bytes. *)
Lemma int_to_from_bytes : forall (bs : list byte) (n : nat),
  length bs = n ->
  int_to_bytes_little n (int_from_bytes_little bs) = bs.
Proof.
  induction bs as [|b bs IH]; intros n Hn; subst n; [reflexivity|].
  cbn [length int_to_bytes_little int_from_bytes_little].
  pose proof (byte_val_range b) as Hb.
  replace ((byte_val b + 256 * int_from_bytes_little bs) mod 256)%Z
    with (byte_val b).
  2:{ rewrite (Z.mul_comm 256), Z.mod_add by lia.
      symmetry. apply Z.mod_small. lia. }
  replace ((byte_val b + 256 * int_from_bytes_little bs) / 256)%Z
    with (int_from_bytes_little bs).
  2:{ rewrite (Z.mul_comm 256), Z.div_add by lia.
      rewrite (Z.div_small (byte_val b)) by lia. lia. }
  rewrite byte_of_Z_val, IH; reflexivity.
Qed.

Lemma parse_chunk_ok (buf : list byte) :
  18 <= length buf -> parse_chunk buf = Ok (block_of_chunk buf).
Proof.
  intros H. unfold parse_chunk, block_of_chunk.
  rewrite (nth_error_nth' buf x00) by lia.
  rewrite (nth_error_nth' buf x00) by lia. reflexivity.
Qed.

Lemma bool_byte_truthy (b : byte) : flag_byte b -> bool_byte (truthy b) = b.
Proof. intros [-> | ->]; reflexivity. Qed.

Lemma length_spec_encode (b : Block) : length (spec_encode b) = 32.
Proof. reflexivity. Qed.

(** The first 18 bytes of a re-encoded chunk: the two integers come back
    byte for byte, the two flags come back as 0 or 1. *)
Lemma encode_chunk (buf : list byte) :
  18 <= length buf ->
  firstn 18 (spec_encode (block_of_chunk buf)) =
  slice buf 0 8 ++ [bool_byte (truthy (nth 8 buf x00))] ++
  slice buf 9 17 ++ [bool_byte (truthy (nth 17 buf x00))].
Proof.
  intros H. unfold spec_encode, block_of_chunk.
  cbn [size is_free addr is_reuseable].
  rewrite !int_to_from_bytes
    by (change 8 with (0 + 8) at 1; try change 17 with (9 + 8);
        apply slice_length; lia).
  rewrite !app_assoc. rewrite firstn_app.
  match goal with |- firstn 18 ?l ++ firstn ?k _ = _ =>
    assert (Hl : length l = 18) end.
  { rewrite !length_app.
    change 8 with (0 + 8) at 1. change 17 with (9 + 8).
    rewrite !slice_length by lia. reflexivity. }
  rewrite Hl, firstn_all2 by lia. cbn [Nat.sub firstn].
  now rewrite app_nil_r.
Qed.

Lemma firstn_18_split (buf : list byte) :
  18 <= length buf ->
  firstn 18 buf =
  slice buf 0 8 ++ [nth 8 buf x00] ++ slice buf 9 17 ++ [nth 17 buf x00].
Proof.
  intros H.
  do 18 (destruct buf as [|? buf]; [cbn in H; lia|]). reflexivity.
Qed.

Section Parse.
Variable bytes : list byte.

Lemma parse_loop_ok : forall (n a : nat) (blocks : list Block),
  32 * (a + n) <= length bytes ->
  parse_loop bytes (map (fun k => 32 * k) (seq a n)) blocks =
  Ok (blocks ++ map (fun k => block_of_chunk (chunk bytes k)) (seq a n)).
Proof.
  induction n as [|n IH]; intros a blocks H; cbn [seq map parse_loop].
  - now rewrite app_nil_r.
  - fold (chunk bytes a).
    rewrite parse_chunk_ok by (unfold chunk; rewrite slice_length; lia).
    rewrite IH by lia. now rewrite <- app_assoc.
Qed.

Lemma range_exact :
  length bytes mod 32 = 0 -> (length bytes + 31) / 32 = length bytes / 32.
Proof.
  intros H. pose proof (Nat.div_mod_eq (length bytes) 32) as E.
  symmetry. apply (Nat.div_unique _ 32 _ 31); lia.
Qed.

Lemma HeapRepr_ok :
  length bytes mod 32 = 0 ->
  HeapRepr bytes =
  Ok (map (fun k => block_of_chunk (chunk bytes k))
          (seq 0 (length bytes / 32))).
Proof.
  intros H. unfold HeapRepr, parse, range_0x20.
  rewrite H, range_exact by assumption. cbn [Nat.eqb].
  apply (parse_loop_ok _ 0 []).
  pose proof (Nat.div_mod_eq (length bytes) 32). lia.
Qed.
End Parse.

(** C3 (as stated, refuted). A 32-byte buffer whose [is_free] byte is 2
    decodes to one block, and the re-encoded block differs from the buffer
    within the first 18 bytes (byte 8 comes back as 1). *)
Lemma C3_flag_2_not_reproduced :
  exists block,
    HeapRepr chunk_flag_2 = Ok [block]
    /\ firstn 18 (spec_encode block) <> firstn 18 chunk_flag_2.
Proof.
  eexists. split; [vm_compute; reflexivity|].
  vm_compute. discriminate.
Qed.

(** C3 (amended). For a buffer whose length is a multiple of 32, decoding
    yields exactly length/32 blocks, and the 32-byte re-encoding of the
    k-th block reproduces bytes [0,8) and [9,17) of the k-th chunk, with
    each flag byte written as 1 when the original is nonzero and as 0
    otherwise; it reproduces bytes [0,18) of every chunk whose two flag
    bytes are 0 or 1. *)
Theorem C3_raw_roundtrip :
  forall bytes : list byte,
    length bytes mod 32 = 0 ->
    exists blocks,
      HeapRepr bytes = Ok blocks
      /\ length blocks = length bytes / 32
      /\ forall k block,
          nth_error blocks k = Some block ->
          let free_byte := nth (32 * k + 8) bytes x00 in
          let reuse_byte := nth (32 * k + 17) bytes x00 in
          length (spec_encode block) = 32
          /\ firstn 18 (spec_encode block) =
             slice bytes (32 * k) (32 * k + 8)
             ++ [bool_byte (truthy free_byte)]
             ++ slice bytes (32 * k + 9) (32 * k + 17)
             ++ [bool_byte (truthy reuse_byte)]
          /\ (flag_byte free_byte -> flag_byte reuse_byte ->
              firstn 18 (spec_encode block) =
              slice bytes (32 * k) (32 * k + 18)).
Proof.
  intros bytes Hmod. eexists. split; [apply HeapRepr_ok, Hmod|].
  split; [now rewrite length_map, length_seq|].
  intros k block Hk free_byte reuse_byte. subst free_byte reuse_byte.
  rewrite nth_error_map, nth_error_seq in Hk.
  destruct (k <? length bytes / 32) eqn:Hlt; [|discriminate].
  apply Nat.ltb_lt in Hlt. cbn [option_map Nat.add] in Hk.
  injection Hk as <-.
  pose proof (Nat.div_mod_eq (length bytes) 32) as Hdiv.
  assert (Hfit : 32 * k + 32 <= length bytes) by lia.
  assert (Hlen : length (chunk bytes k) = 32)
    by (apply slice_length; exact Hfit).
  assert (Henc := encode_chunk (chunk bytes k) ltac:(lia)).
  unfold chunk in Henc at 2 3 4 5.
  rewrite !slice_slice, !(nth_slice x00) in Henc by lia.
  rewrite Nat.add_0_r in Henc.
  split; [apply length_spec_encode|]. split; [exact Henc|].
  intros Hfree Hreuse. rewrite Henc.
  rewrite (bool_byte_truthy _ Hfree), (bool_byte_truthy _ Hreuse).
  assert (Hsplit := firstn_18_split (chunk bytes k) ltac:(lia)).
  unfold chunk in Hsplit.
  rewrite !slice_slice, !(nth_slice x00) in Hsplit by lia.
  rewrite Nat.add_0_r in Hsplit. rewrite <- Hsplit.
  change (firstn 18 (slice bytes (32 * k) (32 * k + 32)))
    with (slice (slice bytes (32 * k) (32 * k + 32)) 0 18).
  rewrite slice_slice by lia. now rewrite Nat.add_0_r.
Qed.

Lemma C3_raw_roundtrip_witness :
  exists blocks,
    HeapRepr (chunk_flag_2 ++ chunk_flag_2) = Ok blocks
    /\ length blocks = length (chunk_flag_2 ++ chunk_flag_2) / 32
    /\ forall k block,
        nth_error blocks k = Some block ->
        let free_byte := nth (32 * k + 8) (chunk_flag_2 ++ chunk_flag_2) x00 in
        let reuse_byte :=
          nth (32 * k + 17) (chunk_flag_2 ++ chunk_flag_2) x00 in
        length (spec_encode block) = 32
        /\ firstn 18 (spec_encode block) =
           slice (chunk_flag_2 ++ chunk_flag_2) (32 * k) (32 * k + 8)
           ++ [bool_byte (truthy free_byte)]
           ++ slice (chunk_flag_2 ++ chunk_flag_2) (32 * k + 9) (32 * k + 17)
           ++ [bool_byte (truthy reuse_byte)]
        /\ (flag_byte free_byte -> flag_byte reuse_byte ->
            firstn 18 (spec_encode block) =
            slice (chunk_flag_2 ++ chunk_flag_2) (32 * k) (32 * k + 18)).
Proof.
  apply (C3_raw_roundtrip (chunk_flag_2 ++ chunk_flag_2)). reflexivity.
Defined.

(** C8. A buffer whose length is not a multiple of 32 fails the assertion
    of [__init__]: [parse] is never called and no block list exists. *)
Theorem C8_misaligned_length_is_fatal :
  forall bytes : list byte,
    length bytes mod 32 <> 0 ->
    HeapRepr bytes = Raise AssertionError.
Proof.
  intros bytes H. unfold HeapRepr.
  destruct (Nat.eqb_spec (length bytes mod 32) 0); [contradiction|].
  reflexivity.
Qed.

Lemma C8_misaligned_length_is_fatal_witness :
  HeapRepr (x00 :: chunk_flag_2) = Raise AssertionError.
Proof.
  apply (C8_misaligned_length_is_fatal (x00 :: chunk_flag_2)).
  vm_compute. discriminate.
Defined.

End HeapRawFacts.

(** ** The adjacency report *)
Module SortBlocksFacts.
Import SortBlocks.

Lemma update_app_length {A : Type} (l : list A) (x v : A) :
  update (length l) v (l ++ [x]) = l ++ [v].
Proof. induction l as [|a l IH]; cbn; [reflexivity|now rewrite IH]. Qed.

Lemma map_nth_seq {A : Type} (d : A) (l : list A) :
  map (fun r => nth r l d) (seq 0 (length l)) = l.
Proof.
  induction l as [|a l IH]; [reflexivity|].
  cbn [length seq map nth]. f_equal.
  rewrite <- seq_shift, map_map. exact IH.
Qed.

(** *** Insertion sort: permutation, commutation with [map], stability *)
Section Sort.
Context {A : Type} (key : A -> Z).

Lemma insert_by_perm (x : A) (l : list A) :
  Permutation (insert_by key x l) (x :: l).
Proof.
  induction l as [|y l IH]; cbn [insert_by]; [reflexivity|].
  destruct (key x <=? key y)%Z; [reflexivity|].
  rewrite IH. apply perm_swap.
Qed.

Lemma sort_by_perm (l : list A) : Permutation (sort_by key l) l.
Proof.
  induction l as [|x l IH]; cbn [sort_by fold_right]; [reflexivity|].
  fold (sort_by key l). rewrite insert_by_perm. now constructor.
Qed.

Lemma before_in_r (x y : A) (l : list A) : Before x y l -> In y l.
Proof. induction 1; cbn; auto. Qed.

Lemma insert_by_keeps_before (a x y : A) (l : list A) :
  Before x y l -> Before x y (insert_by key a l).
Proof.
  induction 1 as [l Hin|b l H IH]; cbn [insert_by].
  - destruct (key a <=? key x)%Z.
    + apply Before_later, Before_here, Hin.
    + apply Before_here.
      apply (Permutation_in _ (Permutation_sym (insert_by_perm a l))).
      now right.
  - destruct (key a <=? key b)%Z.
    + now apply Before_later, Before_later.
    + now apply Before_later.
Qed.

Lemma insert_by_before_equal (x y : A) (l : list A) :
  In y l -> key x = key y -> Before x y (insert_by key x l).
Proof.
  intros Hin Hkey. induction l as [|b l IH]; [destruct Hin|].
  cbn [insert_by]. destruct (key x <=? key b)%Z eqn:E.
  - now apply Before_here.
  - apply Before_later, IH. destruct Hin as [-> | Hin]; [|exact Hin].
    apply Z.leb_gt in E. lia.
Qed.

(** Stability: two elements with equal keys keep their order. *)
Lemma sort_by_stable (x y : A) (l : list A) :
  Before x y l -> key x = key y -> Before x y (sort_by key l).
Proof.
  intros H Hkey. induction H as [l Hin|b l H IH];
    cbn [sort_by fold_right]; fold (sort_by key l).
  - apply insert_by_before_equal; [|exact Hkey].
    apply (Permutation_in _ (Permutation_sym (sort_by_perm l))), Hin.
  - apply insert_by_keeps_before, IH.
Qed.
End Sort.

Lemma sort_by_map {A B : Type} (f : A -> B) (key : B -> Z) (l : list A) :
  map f (sort_by (fun a => key (f a)) l) = sort_by key (map f l).
Proof.
  induction l as [|x l IH]; [reflexivity|].
  cbn [sort_by fold_right map].
  fold (sort_by (fun a => key (f a)) l). fold (sort_by key (map f l)).
  rewrite <- IH. generalize (sort_by (fun a => key (f a)) l) as s.
  induction s as [|y s IHs]; [reflexivity|]. cbn [insert_by map].
  destruct (key (f x) <=? key (f y))%Z; cbn [map]; [reflexivity|].
  now rewrite IHs.
Qed.

Lemma before_nth_error {A : Type} (l : list A) : forall i j x y,
  i < j -> nth_error l i = Some x -> nth_error l j = Some y -> Before x y l.
Proof.
  induction l as [|a l IH]; intros [|i] [|j] x y Hij Hi Hj;
    cbn in *; try discriminate; try lia.
  - injection Hi as ->. apply Before_here. eapply nth_error_In, Hj.
  - apply Before_later. apply (IH i j); auto. lia.
Qed.

Lemma new_blocks_spec : forall (xs : list (nat * Row)) (s : Store),
  new_blocks xs s =
  (seq (length (objects s)) (length xs),
   {| objects := objects s ++ map block_of xs; lists := lists s |}).
Proof.
  induction xs as [|x xs IH]; intros s; cbn [new_blocks map length seq].
  - rewrite app_nil_r. now destruct s.
  - unfold new_block. rewrite IH. cbn [objects lists].
    rewrite length_app, <- app_assoc. cbn [length app].
    now rewrite Nat.add_1_r.
Qed.

Lemma length_blocks_of (rows : list Row) :
  length (blocks_of rows) = length rows.
Proof.
  unfold blocks_of, enumerate.
  rewrite length_map, length_combine, length_seq. lia.
Qed.

Lemma load_spec (rows : list Row) :
  load rows =
  (0, {| objects := blocks_of rows; lists := [seq 0 (length rows)] |}).
Proof.
  unfold load. rewrite new_blocks_spec. cbn.
  unfold enumerate. rewrite length_combine, length_seq, Nat.min_id.
  reflexivity.
Qed.

(** The analysis allocates one list and writes only to it. *)
Lemma analyze_frame (data : lref) (s : Store) :
  snd (fst (analyze data s)) =
  {| objects := objects s;
     lists := lists s ++
              [sort_by (fun r => address (deref s r)) (get_list s data)] |}
  /\ snd (analyze data s) = length (lists s).
Proof.
  unfold analyze, list_copy, new_list, list_sort, set_list, get_list, deref.
  cbn [fst snd objects lists].
  rewrite update_app_length, nth_middle. split; reflexivity.
Qed.

Lemma sorted_blocks_spec (rows : list Row) :
  sorted_blocks rows = sort_by address (blocks_of rows).
Proof.
  unfold sorted_blocks, script. rewrite load_spec.
  pose proof (analyze_frame 0
    {| objects := blocks_of rows; lists := [seq 0 (length rows)] |}) as [H1 H2].
  destruct (analyze _ _) as [[out s] sd]. cbn [fst snd] in H1, H2.
  subst s sd. unfold get_list, deref. cbn [objects lists nth length app].
  rewrite (sort_by_map (fun r => nth r (blocks_of rows) dummy) address).
  rewrite <- (length_blocks_of rows), map_nth_seq. reflexivity.
Qed.

Lemma line_block_report_line (sd : list Block) (i : nat) :
  line_block (report_line sd i) = nth i sd dummy.
Proof.
  unfold report_line.
  destruct (if 0 <? i then nth_error sd (i - 1) else None) as [lb|];
    [destruct (is_next_to lb _); [reflexivity|]|];
    (destruct (if i <? length sd - 1 then nth_error sd (i + 1) else None)
       as [nb|]; [destruct (is_next_to _ nb)|]); reflexivity.
Qed.

Lemma report_blocks (s : Store) (l : lref) :
  map line_block (report s l) = map (deref s) (get_list s l).
Proof.
  unfold report. rewrite map_map.
  erewrite map_ext; [apply map_nth_seq|].
  intros i. apply line_block_report_line.
Qed.

Lemma perm3_cases {A : Type} (a b c : A) (l : list A) :
  Permutation l [a; b; c] ->
  In l [[a; b; c]; [a; c; b]; [b; a; c]; [b; c; a]; [c; a; b]; [c; b; a]].
Proof.
  intros H. apply Permutation_sym in H.
  destruct l as [|x [|y [|z [|w l]]]];
    try (apply Permutation_length in H; discriminate).
  assert (Hx : In x [a; b; c]) by
    (apply (Permutation_in _ (Permutation_sym H)); cbn; auto).
  destruct Hx as [<-|[<-|[<-|[]]]].
  - apply Permutation_cons_inv in H.
    apply Permutation_length_2_inv in H as [E|E]; injection E as <- <-;
      cbn; auto.
  - apply (Permutation_trans (perm_swap a b [c])) in H.
    apply Permutation_cons_inv in H.
    apply Permutation_length_2_inv in H as [E|E]; injection E as <- <-;
      cbn; auto 7.
  - apply (Permutation_trans (Permutation_cons_append [a; b] c)) in H.
    apply Permutation_cons_inv in H.
    apply Permutation_length_2_inv in H as [E|E]; injection E as <- <-;
      cbn; auto 7.
Qed.

(** C4. Whatever the order of the three rows A(addr=0,size=10),
    B(addr=10,size=5), C(addr=100,size=1) in the input and whatever their
    flags, the sorted order is A, B, C and the report says: A is next to
    B, B is next to A, C is not next to any other block. *)
Theorem C4_adjacency_of_three_blocks :
  forall (a1 a2 b1 b2 c1 c2 : bool) (rows : list Row),
    Permutation rows
      [(0, 10, a1, a2); (10, 5, b1, b2); (100, 1, c1, c2)]%Z ->
    exists ia ib ic,
      let A := mkBlock ia 0 10 a1 a2 in
      let B := mkBlock ib 10 5 b1 b2 in
      let C := mkBlock ic 100 1 c1 c2 in
      sorted_blocks rows = [A; B; C]
      /\ lines (fst (fst (script rows)))
         = [NextTo A B; NextTo B A; NotNextToAny C].
Proof.
  intros a1 a2 b1 b2 c1 c2 rows H.
  apply perm3_cases in H.
  cbn [In] in H.
  destruct H as [<-|[<-|[<-|[<-|[<-|[<-|[]]]]]]];
    eexists _, _, _; cbv zeta; split; vm_compute; reflexivity.
Qed.

Lemma C4_adjacency_of_three_blocks_witness :
  exists ia ib ic,
    let A := mkBlock ia 0 10 true false in
    let B := mkBlock ib 10 5 false true in
    let C := mkBlock ic 100 1 false false in
    sorted_blocks [(100, 1, false, false); (0, 10, true, false);
                   (10, 5, false, true)]%Z = [A; B; C]
    /\ lines (fst (fst (script [(100, 1, false, false); (0, 10, true, false);
                                (10, 5, false, true)]%Z)))
       = [NextTo A B; NextTo B A; NotNextToAny C].
Proof.
  apply (C4_adjacency_of_three_blocks true false false true false false).
  exact (Permutation_cons_append
           [(0, 10, true, false); (10, 5, false, true)]%Z
           (100, 1, false, false)%Z).
Defined.

(** C5 (as stated, refuted). For two rows with the same address the
    script prints nothing about the pair: it answers that the sorted list
    matches the original one and reports each of the two blocks, in input
    order, as not next to any other block. *)
Lemma C5_equal_addresses_not_signalled :
  fst (fst (script equal_address_rows)) =
  mkOutput true
    [NotNextToAny (mkBlock 0 5 3 true false);
     NotNextToAny (mkBlock 1 5 3 false true)].
Proof. vm_compute. reflexivity. Qed.

(** C5 (amended). When two input records have the same address, the
    analyzer gives no signal for the pair: the sort is stable, so the one
    that comes first in the input comes first in the sorted order; the
    sorted order is a permutation of the input, and the report has one
    ordinary line (next-to or not-next-to) per block, in sorted order, so
    the analysis of the other blocks is not cut short. *)
Theorem C5_equal_addresses_keep_input_order :
  forall (rows : list Row) (i j : nat) (bi bj : Block),
    i < j ->
    nth_error (blocks_of rows) i = Some bi ->
    nth_error (blocks_of rows) j = Some bj ->
    address bi = address bj ->
    Before bi bj (sorted_blocks rows)
    /\ map line_block (lines (fst (fst (script rows)))) = sorted_blocks rows
    /\ Permutation (sorted_blocks rows) (blocks_of rows).
Proof.
  intros rows i j bi bj Hij Hi Hj Haddr. split; [|split].
  - rewrite sorted_blocks_spec. apply sort_by_stable; [|exact Haddr].
    exact (before_nth_error _ i j bi bj Hij Hi Hj).
  - unfold sorted_blocks, script. destruct (load rows) as [data s].
    unfold analyze. destruct (list_copy data s) as [sd s1].
    cbn [fst snd lines]. apply report_blocks.
  - rewrite sorted_blocks_spec. apply sort_by_perm.
Qed.


Lemma C5_equal_addresses_keep_input_order_witness :
  Before (mkBlock 0 5 3 true false) (mkBlock 1 5 3 false true)
         (sorted_blocks equal_address_rows)
  /\ map line_block (lines (fst (fst (script equal_address_rows))))
     = sorted_blocks equal_address_rows
  /\ Permutation (sorted_blocks equal_address_rows)
                 (blocks_of equal_address_rows).
Proof.
  apply (C5_equal_addresses_keep_input_order equal_address_rows 0 1);
    [lia | reflexivity | reflexivity | reflexivity].
Defined.

(** C9. The analysis never writes to its input: whatever the store and
    the list [data] refers to, after lines 31 to 49 every [Block] object
    is as it was (id, address, size and flags), the list [data] refers to
    holds the same references in the same order, as does every list that
    existed before, and [sorted_data] refers to a new list. *)
Theorem C9_analysis_leaves_input_unchanged :
  forall (s : Store) (data : lref),
    data < length (lists s) ->
    let '(out, s', sorted_data) := analyze data s in
    objects s' = objects s
    /\ get_list s' data = get_list s data
    /\ sorted_data <> data
    /\ (forall l, l < length (lists s) -> get_list s' l = get_list s l).
Proof.
  intros s data Hdata.
  pose proof (analyze_frame data s) as [H1 H2].
  destruct (analyze data s) as [[out s'] sd]. cbn [fst snd] in H1, H2.
  subst s' sd. unfold get_list. cbn [objects lists].
  split; [reflexivity|].
  split; [now apply app_nth1|].
  split; [lia|].
  intros l Hl. now apply app_nth1.
Qed.


Lemma C9_analysis_leaves_input_unchanged_witness :
  let '(out, s', sorted_data) :=
    analyze 0 (snd (load equal_address_rows)) in
  objects s' = objects (snd (load equal_address_rows))
  /\ get_list s' 0 = get_list (snd (load equal_address_rows)) 0
  /\ sorted_data <> 0
  /\ (forall l, l < length (lists (snd (load equal_address_rows))) ->
      get_list s' l = get_list (snd (load equal_address_rows)) l).
Proof.
  apply (C9_analysis_leaves_input_unchanged
           (snd (load equal_address_rows)) 0).
  vm_compute. lia.
Defined.

End SortBlocksFacts.

(** ** More on the framed serial dump *)
Module RawSerialMore.
Import RawSerial RawSerialFacts.

Lemma length_cursors : forall n i, length (cursors i n) = n.
Proof. induction n; intros i; cbn; auto. Qed.

Lemma nth_error_cursors : forall n i k,
  k < n -> nth_error (cursors i n) k = Some (i + 18 * k).
Proof.
  induction n as [|n IH]; intros i k Hk; [lia|].
  destruct k as [|k]; cbn [cursors nth_error].
  - f_equal. lia.
  - rewrite IH by lia. f_equal. lia.
Qed.

(** The number of records the loop reads from cursor [i]. *)
Lemma loop_count (len i n : nat) :
  len <= i + 18 * n + 32 ->
  Forall (fun c => c + 32 < len) (cursors i n) ->
  n = record_count len i.
Proof.
  intros Hstop Hguard. unfold record_count.
  destruct n as [|n].
  - replace (i + 32 <? len) with false; [reflexivity|].
    symmetry. apply Nat.ltb_ge. lia.
  - assert (Hlast : i + 18 * n + 32 < len).
    { rewrite Forall_forall in Hguard.
      apply (Hguard (i + 18 * n)).
      eapply nth_error_In, nth_error_cursors. lia. }
    replace (i + 32 <? len) with true
      by (symmetry; apply Nat.ltb_lt; lia).
    rewrite Nat.add_1_r. f_equal.
    apply (Nat.div_unique _ 18 _ (len - i - 33 - 18 * n)); lia.
Qed.

(** A run whose header is accepted, in closed form. *)
Lemma run_accepted (data : list byte) :
  accepted data ->
  let i := 6 + name_length data in
  let n := record_count (length data) i in
  run data =
  (Ok (map (block_at data) (cursors i n)),
   {| index := i + 18 * n;
      reads := [(0, 1); (1, 1); (2, name_length data);
                (2 + name_length data, 4)]
               ++ flat_map block_reads (cursors i n);
      errs := (if (file_size data >=? Z.of_nat (length data))%Z
               then [FileSizeTooSmall] else [])
              ++ map (fun c => InvalidAddress (address (block_at data c))
                                              TEST_ALLOCATOR_SIGN)
                     (cursors i n) |}).
Proof.
  intros (Hlen & Hcmd & Hname) i n.
  pose proof (main_after_command data Hlen Hcmd) as Hmain.
  cbv zeta in Hmain. fold (name_length data) in Hmain.
  fold (filename data) in Hmain. fold (file_size data) in Hmain.
  rewrite Hname in Hmain. rewrite Hmain.
  match goal with |- read_blocks data _ [] ?s = _ =>
    destruct (read_blocks_run data (length data) [] s ltac:(lia))
      as (m & Hrun & Hstop & Hguard) end.
  cbn [index] in Hrun, Hstop, Hguard.
  replace (2 + name_length data + 4) with i in * by (unfold i; lia).
  assert (m = n) by (apply loop_count; assumption). subst m.
  rewrite Hrun. unfold after_blocks. cbn [index reads errs app].
  reflexivity.
Qed.

Lemma run_outcome (data : list byte) :
  match fst (run data) with
  | Ok _ => accepted data
  | Raise IndexError => data = [] \/ data = [x01]
  | Raise (SystemExit code) =>
    code = (-1)%Z /\ byte_val (nth 0 data x00) <> 1%Z /\ data <> []
  | Raise UnicodeDecodeError =>
    2 <= length data /\ byte_val (nth 0 data x00) = 1%Z
    /\ utf8_valid (filename data) = false
  | Raise FuelExhausted => False
  end.
Proof.
  destruct data as [|b rest]; [cbn; auto|].
  destruct (Z.eq_dec (byte_val b) 1) as [Hb|Hb].
  - destruct rest as [|c rest].
    + change 1%Z with (byte_val x01) in Hb. apply byte_val_inj in Hb.
      subst b. vm_compute. right. reflexivity.
    + assert (Hlen : 2 <= length (b :: c :: rest)) by (cbn; lia).
      destruct (utf8_valid (filename (b :: c :: rest))) eqn:Hname.
      * rewrite run_accepted by (repeat split; assumption).
        cbn [fst]. repeat split; assumption.
      * pose proof (main_after_command (b :: c :: rest) Hlen Hb) as Hmain.
        cbv zeta in Hmain. fold (name_length (b :: c :: rest)) in Hmain.
        fold (filename (b :: c :: rest)) in Hmain.
        rewrite Hname in Hmain. rewrite Hmain. cbn [fst].
        repeat split; assumption.
  - rewrite main_bad_command by exact Hb. cbn [fst nth].
    repeat split; [exact Hb|discriminate].
Qed.

Lemma accepted_of_ok (data : list byte) (blocks : list Block) (st : State) :
  run data = (Ok blocks, st) -> accepted data.
Proof.
  intros H. pose proof (run_outcome data) as Ho. now rewrite H in Ho.
Qed.

Lemma block_at_u64 (data : list byte) (c : nat) :
  u64 (size (block_at data c)) /\ u64 (address (block_at data c)).
Proof.
  unfold block_at. cbn [size address].
  split; apply int_from_slice_u64; lia.
Qed.

(** X15. How a run ends, for every buffer: normally exactly when the
    header is accepted; with IndexError exactly on the empty buffer and on
    the lone byte 0x01; with exit status -1 exactly when the first byte is
    not 0x01; with UnicodeDecodeError exactly when the file name is not
    UTF-8. The loop always terminates. *)
Theorem X15_serial_outcome (data : list byte) :
  match fst (run data) with
  | Ok _ => accepted data
  | Raise IndexError => data = [] \/ data = [x01]
  | Raise (SystemExit code) =>
    code = (-1)%Z /\ byte_val (nth 0 data x00) <> 1%Z /\ data <> []
  | Raise UnicodeDecodeError =>
    2 <= length data /\ byte_val (nth 0 data x00) = 1%Z
    /\ utf8_valid (filename data) = false
  | Raise FuelExhausted => False
  end.
Proof. apply run_outcome. Qed.

(** X16. In a run that ends normally the lines printed through [err] are,
    in this order: "File size is too small" if and only if the announced
    file size is at least the length of the whole buffer, then one "Invalid
    address" line for each decoded block, naming its address. *)
Theorem X16_serial_err_lines (data : list byte) (blocks : list Block) (st : State) :
  run data = (Ok blocks, st) ->
  errs st =
  (if (file_size data >=? Z.of_nat (length data))%Z
   then [FileSizeTooSmall] else [])
  ++ map (fun b => InvalidAddress (address b) TEST_ALLOCATOR_SIGN) blocks.
Proof.
  intros H. pose proof (accepted_of_ok _ _ _ H) as Ha.
  pose proof (run_accepted data Ha) as Hr. cbv zeta in Hr.
  rewrite Hr in H. injection H as <- <-. cbn [errs].
  now rewrite map_map.
Qed.


Lemma X16_serial_err_lines_witness :
  [InvalidAddress TEST_ALLOCATOR_SIGN TEST_ALLOCATOR_SIGN] =
  (if (file_size signed_stream >=? Z.of_nat (length signed_stream))%Z
   then [FileSizeTooSmall] else [])
  ++ map (fun b => InvalidAddress (address b) TEST_ALLOCATOR_SIGN)
         [mkBlock TEST_ALLOCATOR_SIGN 16 false true].
Proof.
  apply (X16_serial_err_lines signed_stream
           [mkBlock TEST_ALLOCATOR_SIGN 16 false true]
           {| index := 24;
              reads := [(0, 1); (1, 1); (2, 0); (2, 4);
                        (6, 8); (14, 1); (15, 8); (23, 1)];
              errs := [InvalidAddress TEST_ALLOCATOR_SIGN
                                      TEST_ALLOCATOR_SIGN] |}).
  vm_compute. reflexivity.
Defined.

(** X17. When the header is accepted the run ends normally with
    [record_count] blocks: none if at most 32 bytes follow the header,
    otherwise one for every 18 bytes beyond the 32nd, rounded up; the
    cursor ends 18 bytes further for each block. *)
Theorem X17_serial_record_count (data : list byte) :
  accepted data ->
  exists blocks st,
    run data = (Ok blocks, st)
    /\ length blocks = record_count (length data) (6 + name_length data)
    /\ index st = 6 + name_length data + 18 * length blocks.
Proof.
  intros Ha. pose proof (run_accepted data Ha) as Hr. cbv zeta in Hr.
  eexists _, _. split; [exact Hr|].
  rewrite length_map, length_cursors. split; reflexivity.
Qed.


Lemma X17_serial_record_count_witness :
  exists blocks st,
    run signed_stream = (Ok blocks, st)
    /\ length blocks
       = record_count (length signed_stream) (6 + name_length signed_stream)
    /\ index st = 6 + name_length signed_stream + 18 * length blocks.
Proof.
  apply (X17_serial_record_count signed_stream).
  unfold accepted. vm_compute. repeat split; lia.
Defined.

(** X18. Every block of a run that ends normally has a size and an address
    that are unsigned 64-bit values. *)
Theorem X18_serial_fields_are_u64
        (data : list byte) (blocks : list Block) (st : State) :
  run data = (Ok blocks, st) ->
  Forall (fun b => u64 (size b) /\ u64 (address b)) blocks.
Proof.
  intros H. pose proof (accepted_of_ok _ _ _ H) as Ha.
  pose proof (run_accepted data Ha) as Hr. cbv zeta in Hr.
  assert (E : map (block_at data)
                  (cursors (6 + name_length data)
                     (record_count (length data) (6 + name_length data)))
              = blocks) by congruence.
  subst blocks. apply Forall_forall. intros b Hb.
  apply in_map_iff in Hb as (c & <- & _). apply block_at_u64.
Qed.

Lemma X18_serial_fields_are_u64_witness :
  Forall (fun b => u64 (size b) /\ u64 (address b))
         [mkBlock TEST_ALLOCATOR_SIGN 16 false true].
Proof.
  apply (X18_serial_fields_are_u64 signed_stream
           [mkBlock TEST_ALLOCATOR_SIGN 16 false true]
           {| index := 24;
              reads := [(0, 1); (1, 1); (2, 0); (2, 4);
                        (6, 8); (14, 1); (15, 8); (23, 1)];
              errs := [InvalidAddress TEST_ALLOCATOR_SIGN
                                      TEST_ALLOCATOR_SIGN] |}).
  vm_compute. reflexivity.
Defined.

(** X19. The framed record layout: the k-th block of a run that ends
    normally was read at offset c = 6 + file name length + 18 k, with more
    than 32 bytes left there; its size is the little-endian value of bytes
    [c, c+8), its address that of bytes [c+9, c+17), and its two flags say
    whether byte c+8 and byte c+17 are equal to 1. *)
Theorem X19_serial_record_layout (data : list byte) (blocks : list Block) (st : State)
        (k : nat) (b : Block) :
  run data = (Ok blocks, st) ->
  nth_error blocks k = Some b ->
  let c := 6 + name_length data + 18 * k in
  c + 32 < length data
  /\ size b = int_from_bytes_little (slice data c (c + 8))
  /\ is_free b = (byte_val (nth (c + 8) data x00) =? 1)%Z
  /\ address b = int_from_bytes_little (slice data (c + 9) (c + 17))
  /\ is_reuseable b = (byte_val (nth (c + 17) data x00) =? 1)%Z.
Proof.
  intros H Hk c. pose proof (accepted_of_ok _ _ _ H) as Ha.
  pose proof (run_accepted data Ha) as Hr. cbv zeta in Hr.
  set (i := 6 + name_length data) in *.
  set (n := record_count (length data) i) in *.
  assert (Eb : blocks = map (block_at data) (cursors i n)) by congruence.
  subst blocks. clear H Hr.
  rewrite nth_error_map in Hk.
  assert (Hlt : k < n).
  { rewrite <- (length_cursors n i). apply nth_error_Some.
    intros E. rewrite E in Hk. discriminate Hk. }
  rewrite nth_error_cursors in Hk by exact Hlt. cbn in Hk.
  injection Hk as <-. fold c. split; [|repeat split].
  unfold n, record_count in Hlt.
  destruct (i + 32 <? length data) eqn:G; [|lia].
  apply Nat.ltb_lt in G.
  pose proof (Nat.div_mod_eq (length data - i - 33) 18) as D.
  unfold c. lia.
Qed.


Lemma X19_serial_record_layout_witness :
  let c := 6 + name_length signed_stream + 18 * 0 in
  c + 32 < length signed_stream
  /\ size (mkBlock TEST_ALLOCATOR_SIGN 16 false true)
     = int_from_bytes_little (slice signed_stream c (c + 8))
  /\ is_free (mkBlock TEST_ALLOCATOR_SIGN 16 false true)
     = (byte_val (nth (c + 8) signed_stream x00) =? 1)%Z
  /\ address (mkBlock TEST_ALLOCATOR_SIGN 16 false true)
     = int_from_bytes_little (slice signed_stream (c + 9) (c + 17))
  /\ is_reuseable (mkBlock TEST_ALLOCATOR_SIGN 16 false true)
     = (byte_val (nth (c + 17) signed_stream x00) =? 1)%Z.
Proof.
  apply (X19_serial_record_layout signed_stream
           [mkBlock TEST_ALLOCATOR_SIGN 16 false true]
           {| index := 24;
              reads := [(0, 1); (1, 1); (2, 0); (2, 4);
                        (6, 8); (14, 1); (15, 8); (23, 1)];
              errs := [InvalidAddress TEST_ALLOCATOR_SIGN
                                      TEST_ALLOCATOR_SIGN] |} 0).
  - vm_compute. reflexivity.
  - reflexivity.
Defined.

(** X20. The two decoders agree on a record whose flag bytes are 0 or 1:
    with 18 bytes at the cursor, [read_block] of the serial script and the
    loop body of [parse_heap_raw] on the same bytes give the same size,
    address, is_free and is_reuseable. *)
Theorem X20_decoders_agree_on_01_flags (data : list byte) (st : State) :
  index st + 18 <= length data ->
  HeapRaw.flag_byte (nth (index st + 8) data x00) ->
  HeapRaw.flag_byte (nth (index st + 17) data x00) ->
  exists sb st' hb,
    read_block data st = (Ok sb, st')
    /\ HeapRaw.parse_chunk (slice data (index st) (index st + 32)) = Ok hb
    /\ size sb = HeapRaw.size hb
    /\ address sb = HeapRaw.addr hb
    /\ is_free sb = HeapRaw.is_free hb
    /\ is_reuseable sb = HeapRaw.is_reuseable hb.
Proof.
  intros Hfit Hf Hr. eexists _, _, _.
  split; [apply read_block_ok; exact Hfit|].
  assert (Hlen : 18 <= length (slice data (index st) (index st + 32))).
  { unfold slice. rewrite length_firstn, length_skipn. lia. }
  split; [apply HeapRawFacts.parse_chunk_ok; exact Hlen|].
  unfold block_at, HeapRaw.block_of_chunk.
  cbn [size address is_free is_reuseable
       HeapRaw.size HeapRaw.addr HeapRaw.is_free HeapRaw.is_reuseable].
  rewrite !slice_slice, !(nth_slice x00) by lia.
  rewrite Nat.add_0_r. repeat split.
  - destruct Hf as [-> | ->]; reflexivity.
  - destruct Hr as [-> | ->]; reflexivity.
Qed.

Lemma X20_decoders_agree_on_01_flags_witness :
  exists sb st' hb,
    read_block signed_stream (mkState 6 [] []) = (Ok sb, st')
    /\ HeapRaw.parse_chunk
         (slice signed_stream (index (mkState 6 [] []))
                (index (mkState 6 [] []) + 32)) = Ok hb
    /\ size sb = HeapRaw.size hb
    /\ address sb = HeapRaw.addr hb
    /\ is_free sb = HeapRaw.is_free hb
    /\ is_reuseable sb = HeapRaw.is_reuseable hb.
Proof.
  apply (X20_decoders_agree_on_01_flags signed_stream (mkState 6 [] [])).
  - vm_compute. lia.
  - right. reflexivity.
  - left. reflexivity.
Defined.

Lemma chained_app (l1 l2 : list (nat * nat)) : forall a b c,
  chained a l1 b -> chained b l2 c -> chained a (l1 ++ l2) c.
Proof.
  induction l1 as [|[s n] l1 IH]; intros a b c H1 H2; cbn in *.
  - now subst.
  - destruct H1 as [-> H1]. split; [reflexivity|]. eapply IH; eauto.
Qed.

Lemma chained_blocks : forall n i,
  chained i (flat_map block_reads (cursors i n)) (i + 18 * n).
Proof.
  induction n as [|n IH]; intros i; cbn [cursors flat_map].
  - cbn. lia.
  - apply (chained_app _ _ i (i + 18)).
    + cbn. repeat split; lia.
    + replace (i + 18 * S n) with (i + 18 + 18 * n) by lia. apply IH.
Qed.

(** X21. The script reads its input strictly front to back: in every run,
    however it ends, the slices [read_bytes] takes follow one another from
    offset 0 to the final cursor, so no byte is skipped and none is read
    twice. *)
Theorem X21_reads_are_consecutive (data : list byte) :
  chained 0 (reads (snd (run data))) (index (snd (run data))).
Proof.
  destruct data as [|b rest]; [cbn; auto|].
  destruct (Z.eq_dec (byte_val b) 1) as [Hb|Hb].
  - destruct rest as [|c rest].
    + change 1%Z with (byte_val x01) in Hb. apply byte_val_inj in Hb.
      subst b. vm_compute. repeat split.
    + assert (Hlen : 2 <= length (b :: c :: rest)) by (cbn; lia).
      destruct (utf8_valid (filename (b :: c :: rest))) eqn:Hname.
      * rewrite run_accepted by (repeat split; assumption).
        cbn [snd reads index].
        apply (chained_app _ _ 0 (6 + name_length (b :: c :: rest)));
          [|apply chained_blocks].
        cbn. repeat split; lia.
      * pose proof (main_after_command (b :: c :: rest) Hlen Hb) as Hmain.
        cbv zeta in Hmain. fold (name_length (b :: c :: rest)) in Hmain.
        fold (filename (b :: c :: rest)) in Hmain.
        rewrite Hname in Hmain. rewrite Hmain. cbn. repeat split; lia.
  - rewrite main_bad_command by exact Hb. cbn. auto.
Qed.

End RawSerialMore.

(** ** More on the raw heap file *)
Module HeapRawMore.
Import HeapRaw HeapRawFacts.

Lemma byte_val_of_Z (z : Z) : (0 <= z < 256)%Z -> byte_val (byte_of_Z z) = z.
Proof.
  intros H. unfold byte_of_Z, byte_val.
  destruct (Byte.of_N (Z.to_N z)) as [b|] eqn:E.
  - apply Byte.to_of_N in E. rewrite E. lia.
  - apply Byte.of_N_None_iff in E. lia.
Qed.

Lemma int_from_to_bytes : forall (n : nat) (v : Z),
  (0 <= v < 256 ^ Z.of_nat n)%Z ->
  int_from_bytes_little (int_to_bytes_little n v) = v.
Proof.
  induction n as [|n IH]; intros v Hv.
  - cbn in *. lia.
  - cbn [int_to_bytes_little int_from_bytes_little].
    rewrite Nat2Z.inj_succ, Z.pow_succ_r in Hv by lia.
    rewrite byte_val_of_Z by (apply Z.mod_pos_bound; lia).
    rewrite IH.
    + pose proof (Z.div_mod v 256). lia.
    + split; [apply Z.div_pos; lia|].
      apply Z.div_lt_upper_bound; lia.
Qed.

Lemma length_int_to_bytes (n : nat) : forall v,
  length (int_to_bytes_little n v) = n.
Proof. induction n; intros v; cbn; auto. Qed.

Lemma truthy_bool_byte (f : bool) : truthy (bool_byte f) = f.
Proof. destruct f; reflexivity. Qed.

Lemma slice_app_l {A : Type} (a b : list A) (i j : nat) :
  j <= length a -> slice (a ++ b) i j = slice a i j.
Proof.
  intros H. unfold slice. rewrite skipn_app, firstn_app.
  rewrite length_skipn.
  replace (j - i - (length a - i)) with 0 by lia.
  cbn [firstn]. now rewrite app_nil_r.
Qed.

Lemma slice_app_r {A : Type} (a b : list A) (i j : nat) :
  slice (a ++ b) (length a + i) (length a + j) = slice b i j.
Proof.
  unfold slice. rewrite skipn_app.
  rewrite skipn_all2 by lia. cbn [app].
  f_equal; [lia|]. f_equal. lia.
Qed.

Lemma aligned_of_ok (bytes : list byte) (blocks : list Block) :
  HeapRepr bytes = Ok blocks -> length bytes mod 32 = 0.
Proof.
  unfold HeapRepr. destruct (Nat.eqb_spec (length bytes mod 32) 0); auto.
  discriminate.
Qed.

Lemma seq_add (a : nat) : forall n s,
  seq (a + s) n = map (Nat.add a) (seq s n).
Proof.
  induction n as [|n IH]; intros s; [reflexivity|].
  cbn [seq map]. f_equal. rewrite <- IH. f_equal. lia.
Qed.

Lemma HeapRepr_app (a b : list byte) (xs ys : list Block) :
  HeapRepr a = Ok xs -> HeapRepr b = Ok ys ->
  HeapRepr (a ++ b) = Ok (xs ++ ys).
Proof.
  intros Ha Hb.
  pose proof (aligned_of_ok _ _ Ha) as Ma.
  pose proof (aligned_of_ok _ _ Hb) as Mb.
  rewrite HeapRepr_ok in Ha, Hb by assumption.
  assert (Ex : map (fun k => block_of_chunk (chunk a k))
                   (seq 0 (length a / 32)) = xs) by congruence.
  assert (Ey : map (fun k => block_of_chunk (chunk b k))
                   (seq 0 (length b / 32)) = ys) by congruence.
  subst xs ys. clear Ha Hb.
  pose proof (Nat.div_mod_eq (length a) 32) as Da.
  pose proof (Nat.div_mod_eq (length b) 32) as Db.
  remember (length a / 32) as qa eqn:Eqa.
  remember (length b / 32) as qb eqn:Eqb.
  assert (Hlen : length (a ++ b) = 32 * (qa + qb))
    by (rewrite length_app; lia).
  assert (Hmod : length (a ++ b) mod 32 = 0)
    by (symmetry; apply (Nat.mod_unique _ 32 (qa + qb) 0); lia).
  assert (Hdiv : length (a ++ b) / 32 = qa + qb)
    by (symmetry; apply (Nat.div_unique _ 32 (qa + qb) 0); lia).
  rewrite HeapRepr_ok, Hdiv by exact Hmod.
  rewrite seq_app, map_app, Nat.add_0_l.
  apply f_equal. apply f_equal2.
  - apply map_ext_in. intros k Hk. apply in_seq in Hk.
    unfold chunk. rewrite slice_app_l by lia. reflexivity.
  - rewrite <- (Nat.add_0_r qa) at 1. rewrite seq_add, map_map.
    apply map_ext. intros k. unfold chunk.
    replace (32 * (qa + k)) with (length a + 32 * k) by lia.
    rewrite <- Nat.add_assoc, slice_app_r. reflexivity.
Qed.

(** Decoding the layout of one block gives the block back. *)
Lemma HeapRepr_encode (b : Block) :
  u64_fields b -> HeapRepr (spec_encode b) = Ok [b].
Proof.
  intros [Hs Ha]. rewrite HeapRepr_ok by reflexivity.
  rewrite length_spec_encode. cbn [Nat.div Nat.divmod fst seq map].
  do 2 f_equal. unfold chunk. cbn [Nat.mul Nat.add].
  unfold block_of_chunk.
  assert (Hfull : slice (spec_encode b) 0 32 = spec_encode b).
  { unfold slice. cbn [skipn Nat.sub]. apply firstn_all2.
    rewrite length_spec_encode. lia. }
  rewrite Hfull. unfold spec_encode.
  pose proof (length_int_to_bytes 8 (size b)) as L1.
  pose proof (length_int_to_bytes 8 (addr b)) as L2.
  destruct (int_to_bytes_little 8 (size b))
    as [|s0 [|s1 [|s2 [|s3 [|s4 [|s5 [|s6 [|s7 [|]]]]]]]]] eqn:Es;
    try discriminate L1.
  destruct (int_to_bytes_little 8 (addr b))
    as [|a0 [|a1 [|a2 [|a3 [|a4 [|a5 [|a6 [|a7 [|]]]]]]]]] eqn:Ea;
    try discriminate L2.
  cbn [app slice skipn firstn Nat.sub nth repeat].
  rewrite <- Es, <- Ea, !truthy_bool_byte.
  rewrite !int_from_to_bytes by assumption.
  now destruct b.
Qed.

Lemma HeapRepr_encode_all (bs : list Block) :
  Forall u64_fields bs -> HeapRepr (concat (map spec_encode bs)) = Ok bs.
Proof.
  induction 1 as [|b bs Hb _ IH]; [reflexivity|].
  cbn [map concat]. change (b :: bs) with ([b] ++ bs).
  apply HeapRepr_app; [now apply HeapRepr_encode|exact IH].
Qed.

Lemma block_of_chunk_u64 (buf : list byte) :
  u64_fields (block_of_chunk buf).
Proof.
  unfold u64_fields, block_of_chunk. cbn [size addr].
  split; apply int_from_slice_u64; lia.
Qed.

Lemma parse_loop_app (bytes : list byte) (l1 l2 : list nat) :
  forall blocks,
    parse_loop bytes (l1 ++ l2) blocks =
    match parse_loop bytes l1 blocks with
    | Ok done => parse_loop bytes l2 done
    | Raise e => Raise e
    end.
Proof.
  induction l1 as [|i l1 IH]; intros blocks; [reflexivity|].
  cbn [app parse_loop]. destruct (parse_chunk _); [apply IH|reflexivity].
Qed.

Lemma parse_chunk_short (buf : list byte) :
  length buf < 18 -> parse_chunk buf = Raise IndexError.
Proof.
  intros H. unfold parse_chunk.
  destruct (nth_error buf 8); [|reflexivity].
  destruct (nth_error buf 17) eqn:E; [|reflexivity].
  assert (17 < length buf) by (apply nth_error_Some; congruence). lia.
Qed.

Lemma range_partial (len : nat) :
  0 < len mod 32 -> (len + 31) / 32 = len / 32 + 1.
Proof.
  intros H. pose proof (Nat.div_mod_eq len 32) as E.
  pose proof (Nat.mod_upper_bound len 32 ltac:(lia)) as U.
  symmetry. apply (Nat.div_unique _ 32 _ (len mod 32 - 1)); lia.
Qed.

Lemma length_last_chunk (bytes : list byte) :
  length (chunk bytes (length bytes / 32)) = length bytes mod 32.
Proof.
  unfold chunk, slice. rewrite length_firstn, length_skipn.
  pose proof (Nat.div_mod_eq (length bytes) 32) as E.
  pose proof (Nat.mod_upper_bound (length bytes) 32 ltac:(lia)) as U. lia.
Qed.

Lemma parse_partial (bytes : list byte) :
  0 < length bytes mod 32 ->
  parse bytes =
  match parse_chunk (chunk bytes (length bytes / 32)) with
  | Ok block =>
    Ok (map (fun k => block_of_chunk (chunk bytes k))
            (seq 0 (length bytes / 32)) ++ [block])
  | Raise e => Raise e
  end.
Proof.
  intros H. unfold parse, range_0x20. rewrite range_partial by exact H.
  rewrite Nat.add_1_r, seq_S, map_app, parse_loop_app.
  rewrite parse_loop_ok
    by (pose proof (Nat.div_mod_eq (length bytes) 32); lia).
  cbn [app map parse_loop Nat.add]. fold (chunk bytes (length bytes / 32)).
  destruct (parse_chunk _); reflexivity.
Qed.

Lemma slice_ext {A : Type} (d : A) (a b : list A) (i n : nat) :
  length a = length b ->
  (forall j, j < n -> nth (i + j) a d = nth (i + j) b d) ->
  slice a i (i + n) = slice b i (i + n).
Proof.
  intros Hl H. apply (nth_ext _ _ d d).
  - unfold slice. rewrite !length_firstn, !length_skipn. lia.
  - intros j Hj. unfold slice in *. rewrite !nth_firstn, !nth_skipn.
    destruct (j <? i + n - i) eqn:E; [|reflexivity].
    apply Nat.ltb_lt in E. apply H. lia.
Qed.


(** X10. [parse] called without the assertion of [__init__]: when the last
    chunk is partial it raises IndexError if that chunk has fewer than 18
    bytes, and otherwise decodes it as one more block; it yields one block
    per started chunk. *)
Theorem X10_parse_without_assert (bytes : list byte) :
  let r := length bytes mod 32 in
  (0 < r < 18 -> parse bytes = Raise IndexError)
  /\ (r = 0 \/ 18 <= r ->
      exists blocks,
        parse bytes = Ok blocks
        /\ length blocks = (length bytes + 31) / 32).
Proof.
  intros r. split.
  - intros [H0 H18]. rewrite parse_partial by exact H0.
    rewrite parse_chunk_short; [reflexivity|].
    rewrite length_last_chunk. exact H18.
  - intros [H0|H18].
    + eexists. split.
      * unfold parse, range_0x20. rewrite range_exact by exact H0.
        apply (parse_loop_ok bytes _ 0 []).
        pose proof (Nat.div_mod_eq (length bytes) 32). lia.
      * cbn [app]. rewrite length_map, length_seq.
        symmetry. now apply range_exact.
    + assert (H0 : 0 < length bytes mod 32) by (fold r; lia).
      rewrite parse_partial by exact H0.
      rewrite parse_chunk_ok by (rewrite length_last_chunk; exact H18).
      eexists. split; [reflexivity|].
      rewrite length_app, length_map, length_seq, range_partial by exact H0.
      reflexivity.
Qed.


Lemma X10_parse_without_assert_witness :
  parse (x00 :: chunk_flag_2) = Raise IndexError.
Proof.
  apply (proj1 (X10_parse_without_assert (x00 :: chunk_flag_2))).
  vm_compute. lia.
Defined.

(** X11. The decoder never looks at the reserved bytes: two files of the
    same length that agree on the first 18 bytes of every 32-byte chunk
    give the same result. *)
Theorem X11_reserved_bytes_ignored (a b : list byte) :
  length a = length b ->
  (forall k j, j < 18 -> nth (32 * k + j) a x00 = nth (32 * k + j) b x00) ->
  HeapRepr a = HeapRepr b.
Proof.
  intros Hl H.
  destruct (Nat.eq_dec (length a mod 32) 0) as [M|M].
  2:{ unfold HeapRepr. rewrite <- Hl.
      destruct (Nat.eqb_spec (length a mod 32) 0); [contradiction|].
      reflexivity. }
  rewrite (HeapRepr_ok a M), (HeapRepr_ok b) by (rewrite <- Hl; exact M).
  rewrite <- Hl. f_equal. apply map_ext_in. intros k Hk.
  apply in_seq in Hk.
  pose proof (Nat.div_mod_eq (length a) 32) as D.
  unfold block_of_chunk, chunk.
  rewrite !slice_slice, !(nth_slice x00) by lia.
  rewrite (H k 8), (H k 17), !Nat.add_0_r by lia.
  rewrite (slice_ext x00 a b (32 * k) 8 Hl) by (intros j Hj; apply H; lia).
  replace (32 * k + 17) with (32 * k + 9 + 8) by lia.
  rewrite (slice_ext x00 a b (32 * k + 9) 8 Hl)
    by (intros j Hj; rewrite <- Nat.add_assoc; apply H; lia).
  reflexivity.
Qed.

Lemma X11_reserved_bytes_ignored_witness :
  HeapRepr chunk_flag_2 = HeapRepr chunk_flag_2_padded.
Proof.
  apply (X11_reserved_bytes_ignored chunk_flag_2 chunk_flag_2_padded).
  - reflexivity.
  - intros k j Hj. destruct k as [|k].
    + do 18 (destruct j as [|j]; [reflexivity|]). lia.
    + assert (La : length chunk_flag_2 = 32) by reflexivity.
      assert (Lb : length chunk_flag_2_padded = 32) by reflexivity.
      rewrite !nth_overflow by lia. reflexivity.
Defined.

(** X12. Decoding the concatenation of two files that decode gives the
    blocks of the first followed by the blocks of the second. *)
Theorem X12_heap_concatenation (a b : list byte) (xs ys : list Block) :
  HeapRepr a = Ok xs -> HeapRepr b = Ok ys ->
  HeapRepr (a ++ b) = Ok (xs ++ ys).
Proof. apply HeapRepr_app. Qed.

Lemma X12_heap_concatenation_witness :
  HeapRepr (chunk_flag_2 ++ chunk_flag_2_padded) =
  Ok ([mkBlock 16 true 4096 false] ++ [mkBlock 16 true 4096 false]).
Proof.
  apply (X12_heap_concatenation chunk_flag_2 chunk_flag_2_padded);
    reflexivity.
Defined.

(** X13. Decoding inverts the record layout: for blocks whose size and
    address are unsigned 64-bit values, the file made of their 32-byte
    encodings decodes to exactly these blocks, in order. *)
Theorem X13_decode_of_layout (bs : list Block) :
  Forall u64_fields bs -> HeapRepr (concat (map spec_encode bs)) = Ok bs.
Proof. apply HeapRepr_encode_all. Qed.

Lemma X13_decode_of_layout_witness :
  HeapRepr (concat (map spec_encode
                        [mkBlock 16 true 4096 false; mkBlock 0 false 1 true]))
  = Ok [mkBlock 16 true 4096 false; mkBlock 0 false 1 true].
Proof.
  apply (X13_decode_of_layout
           [mkBlock 16 true 4096 false; mkBlock 0 false 1 true]).
  repeat constructor; vm_compute; congruence.
Defined.

(** X14. Every block the decoder returns has a size and an address that
    are unsigned 64-bit values. *)
Theorem X14_heap_fields_are_u64 (bytes : list byte) (blocks : list Block) :
  HeapRepr bytes = Ok blocks -> Forall u64_fields blocks.
Proof.
  intros H. pose proof (aligned_of_ok _ _ H) as M.
  rewrite HeapRepr_ok in H by exact M.
  assert (E : map (fun k => block_of_chunk (chunk bytes k))
                  (seq 0 (length bytes / 32)) = blocks) by congruence.
  subst blocks. apply Forall_forall. intros b Hb.
  apply in_map_iff in Hb as (k & <- & _). apply block_of_chunk_u64.
Qed.

Lemma X14_heap_fields_are_u64_witness :
  Forall u64_fields [mkBlock 16 true 4096 false].
Proof.
  apply (X14_heap_fields_are_u64 chunk_flag_2). reflexivity.
Defined.

End HeapRawMore.

(** ** More on the adjacency report *)
Module SortBlocksMore.
Import SortBlocks SortBlocksFacts.

Section SortMore.
Context {A : Type} (key : A -> Z).
Let key_le (a b : A) : Prop := (key a <= key b)%Z.

Lemma insert_by_sorted (x : A) (l : list A) :
  StronglySorted key_le l -> StronglySorted key_le (insert_by key x l).
Proof.
  induction 1 as [|y l Hs IH Hy]; cbn [insert_by].
  - repeat constructor.
  - destruct (key x <=? key y)%Z eqn:E.
    + apply Z.leb_le in E. constructor; [now constructor|].
      constructor; [exact E|].
      eapply Forall_impl; [|exact Hy]. unfold key_le. intros; lia.
    + apply Z.leb_gt in E. constructor; [exact IH|].
      apply Forall_forall. intros z Hz.
      apply (Permutation_in _ (insert_by_perm key x l)) in Hz.
      destruct Hz as [<-|Hz]; [unfold key_le; lia|].
      rewrite Forall_forall in Hy. now apply Hy.
Qed.

Lemma sort_by_sorted (l : list A) : StronglySorted key_le (sort_by key l).
Proof.
  induction l as [|x l IH]; cbn [sort_by fold_right]; [constructor|].
  now apply insert_by_sorted.
Qed.

Lemma sort_by_sorted_id (l : list A) :
  StronglySorted key_le l -> sort_by key l = l.
Proof.
  induction 1 as [|x l Hs IH Hx]; [reflexivity|].
  cbn [sort_by fold_right]. fold (sort_by key l). rewrite IH.
  destruct l as [|y l]; [reflexivity|]. cbn [insert_by].
  inversion Hx as [|? ? Hxy _]; subst. unfold key_le in Hxy.
  apply Z.leb_le in Hxy. now rewrite Hxy.
Qed.
End SortMore.

Lemma StronglySorted_map {A B : Type} (f : A -> B) (R : B -> B -> Prop)
      (l : list A) :
  StronglySorted R (map f l) <-> StronglySorted (fun a b => R (f a) (f b)) l.
Proof.
  induction l as [|x l IH]; cbn [map]; split; intros H;
    try constructor; inversion H; subst.
  - now apply IH.
  - now apply Forall_map.
  - now apply IH.
  - now apply Forall_map.
Qed.

Lemma script_spec (rows : list Row) :
  let n := length rows in
  let key := fun r : ref => address (nth r (blocks_of rows) dummy) in
  let sd := sort_by address (blocks_of rows) in
  script rows =
  (mkOutput
     (if list_eq_dec Nat.eq_dec (sort_by key (seq 0 n)) (seq 0 n)
      then true else false)
     (map (report_line sd) (seq 0 (length sd))),
   {| objects := blocks_of rows;
      lists := [seq 0 n; sort_by key (seq 0 n)] |},
   1).
Proof.
  intros n key sd. unfold script. rewrite load_spec.
  unfold analyze, report, list_copy, new_list, list_sort, set_list, get_list,
    deref.
  cbn [objects lists length nth app update fst snd].
  fold n. fold key.
  replace (map (fun r : ref => nth r (blocks_of rows) dummy)
               (sort_by key (seq 0 n))) with sd; [reflexivity|].
  unfold sd, key.
  rewrite (sort_by_map (fun r => nth r (blocks_of rows) dummy) address).
  unfold n. rewrite <- (length_blocks_of rows), map_nth_seq. reflexivity.
Qed.

Lemma lines_of_spec (rows : list Row) :
  lines_of rows =
  map (report_line (sorted_blocks rows))
      (seq 0 (length (sorted_blocks rows))).
Proof.
  unfold lines_of. rewrite sorted_blocks_spec.
  pose proof (script_spec rows) as H. cbv zeta in H. rewrite H. reflexivity.
Qed.

Lemma is_next_to_sym (a b : Block) : is_next_to a b = is_next_to b a.
Proof.
  unfold is_next_to. cbv zeta. rewrite orb_comm. f_equal; apply Z.eqb_sym.
Qed.

Lemma lines_of_nth (rows : list Row) (i : nat) (ln : Line) :
  nth_error (lines_of rows) i = Some ln ->
  i < length (sorted_blocks rows)
  /\ ln = report_line (sorted_blocks rows) i.
Proof.
  rewrite lines_of_spec, nth_error_map, nth_error_seq.
  destruct (i <? _) eqn:E; [|discriminate].
  apply Nat.ltb_lt in E. cbn. intros [= <-]. auto.
Qed.

Lemma lines_of_nth_inv (rows : list Row) (i : nat) :
  i < length (sorted_blocks rows) ->
  nth_error (lines_of rows) i = Some (report_line (sorted_blocks rows) i).
Proof.
  intros H. rewrite lines_of_spec, nth_error_map, nth_error_seq.
  apply Nat.ltb_lt in H. now rewrite H.
Qed.

(** One iteration of the report loop, by the two tests it makes. *)
Lemma report_line_cases (sd : list Block) (i : nat) :
  i < length sd ->
  let block := nth i sd dummy in
  let lb := nth (i - 1) sd dummy in
  let nb := nth (i + 1) sd dummy in
  report_line sd i =
  if (0 <? i) && is_next_to lb block then NextTo block lb
  else if (i <? length sd - 1) && is_next_to block nb then NextTo block nb
  else NotNextToAny block.
Proof.
  intros Hi block lb nb. unfold report_line. fold block.
  destruct (0 <? i) eqn:E0; cbn [andb].
  - rewrite (nth_error_nth' sd dummy) by lia. fold lb.
    destruct (is_next_to lb block); [reflexivity|].
    destruct (i <? length sd - 1) eqn:E1; cbn [andb]; [|reflexivity].
    apply Nat.ltb_lt in E1.
    rewrite (nth_error_nth' sd dummy) by lia. reflexivity.
  - destruct (i <? length sd - 1) eqn:E1; cbn [andb]; [|reflexivity].
    apply Nat.ltb_lt in E1.
    rewrite (nth_error_nth' sd dummy) by lia. reflexivity.
Qed.

Lemma nth_error_nth_some {A : Type} (l : list A) (i : nat) (d x : A) :
  nth_error l i = Some x -> nth i l d = x /\ i < length l.
Proof.
  intros H. split; [now apply nth_error_nth|].
  apply nth_error_Some. congruence.
Qed.

Lemma next_to_sound (rows : list Row) (i : nat) (block other : Block) :
  nth_error (lines_of rows) i = Some (NextTo block other) ->
  let sd := sorted_blocks rows in
  nth_error sd i = Some block
  /\ is_next_to block other = true
  /\ ((0 < i /\ nth_error sd (i - 1) = Some other)
      \/ nth_error sd (i + 1) = Some other).
Proof.
  intros H sd. apply lines_of_nth in H as [Hi H]. fold sd in Hi, H.
  rewrite (report_line_cases sd i Hi) in H. cbv zeta in H.
  destruct (0 <? i) eqn:E0; cbn [andb] in H.
  - apply Nat.ltb_lt in E0.
    destruct (is_next_to (nth (i - 1) sd dummy) (nth i sd dummy)) eqn:Ep.
    + injection H as -> ->. rewrite is_next_to_sym.
      repeat split; [now apply nth_error_nth'|exact Ep|].
      left. split; [exact E0|]. apply nth_error_nth'. lia.
    + destruct (i <? length sd - 1) eqn:E1; cbn [andb] in H; [|discriminate].
      apply Nat.ltb_lt in E1.
      destruct (is_next_to _ (nth (i + 1) sd dummy)) eqn:En; [|discriminate].
      injection H as -> ->.
      repeat split; [now apply nth_error_nth'|exact En|].
      right. apply nth_error_nth'. lia.
  - destruct (i <? length sd - 1) eqn:E1; cbn [andb] in H; [|discriminate].
    apply Nat.ltb_lt in E1.
    destruct (is_next_to _ (nth (i + 1) sd dummy)) eqn:En; [|discriminate].
    injection H as -> ->.
    repeat split; [now apply nth_error_nth'|exact En|].
    right. apply nth_error_nth'. lia.
Qed.

Lemma not_next_to_local (rows : list Row) (i : nat) (block : Block) :
  nth_error (lines_of rows) i = Some (NotNextToAny block) ->
  let sd := sorted_blocks rows in
  nth_error sd i = Some block
  /\ forall other,
      (0 < i /\ nth_error sd (i - 1) = Some other)
      \/ nth_error sd (i + 1) = Some other ->
      is_next_to block other = false.
Proof.
  intros H sd. apply lines_of_nth in H as [Hi H]. fold sd in Hi, H.
  rewrite (report_line_cases sd i Hi) in H. cbv zeta in H.
  destruct ((0 <? i) && _) eqn:Ep; [discriminate|].
  destruct ((i <? length sd - 1) && _) eqn:En; [discriminate|].
  injection H as ->. split; [now apply nth_error_nth'|].
  intros other [[H0 Ho]|Ho];
    apply (nth_error_nth_some _ _ dummy) in Ho as [<- Hlt].
  - apply Nat.ltb_lt in H0. rewrite H0 in Ep. cbn [andb] in Ep.
    now rewrite is_next_to_sym.
  - assert (E : (i <? length sd - 1) = true) by (apply Nat.ltb_lt; lia).
    rewrite E in En. exact En.
Qed.

Lemma first_match (rows : list Row) (i : nat) (lb block : Block) :
  let sd := sorted_blocks rows in
  nth_error sd i = Some lb ->
  nth_error sd (S i) = Some block ->
  is_next_to lb block = true ->
  nth_error (lines_of rows) (S i) = Some (NextTo block lb).
Proof.
  intros sd Hlb Hb Ht.
  apply (nth_error_nth_some _ _ dummy) in Hlb as [Hlb _].
  apply (nth_error_nth_some _ _ dummy) in Hb as [Hb Hlt].
  rewrite lines_of_nth_inv by exact Hlt. fold sd.
  rewrite (report_line_cases sd (S i) Hlt). cbv zeta.
  replace (S i - 1) with i by lia. rewrite Hlb, Hb, Ht. reflexivity.
Qed.


Lemma map_fst_combine_seq {A : Type} (l : list A) : forall a,
  map fst (combine (seq a (length l)) l) = seq a (length l).
Proof.
  induction l as [|x l IH]; intros a; [reflexivity|].
  cbn [length seq combine map fst]. now rewrite IH.
Qed.

Lemma ids_of_blocks (rows : list Row) :
  map id (blocks_of rows) = seq 0 (length rows).
Proof.
  unfold blocks_of, enumerate. rewrite map_map.
  rewrite <- (map_fst_combine_seq rows 0) at 2.
  apply map_ext. intros [i [[[a s] f1] f2]]. reflexivity.
Qed.

Lemma blocks_of_NoDup (rows : list Row) : NoDup (blocks_of rows).
Proof.
  apply (NoDup_map_inv id). rewrite ids_of_blocks. apply seq_NoDup.
Qed.

Lemma sorted_blocks_perm (rows : list Row) :
  Permutation (sorted_blocks rows) (blocks_of rows).
Proof. rewrite sorted_blocks_spec. apply sort_by_perm. Qed.

Lemma StronglySorted_nth {A : Type} (R : A -> A -> Prop) (l : list A) :
  StronglySorted R l ->
  forall p q a b,
    p < q -> nth_error l p = Some a -> nth_error l q = Some b -> R a b.
Proof.
  induction 1 as [|x l Hs IH Hx]; intros p q a b Hpq Hp Hq.
  - destruct p; discriminate.
  - destruct q as [|q]; [lia|]. cbn in Hq. destruct p as [|p].
    + cbn in Hp. injection Hp as <-.
      rewrite Forall_forall in Hx. eapply Hx, nth_error_In, Hq.
    + cbn in Hp. apply (IH p q); auto. lia.
Qed.

Lemma sorted_blocks_sorted (rows : list Row) :
  StronglySorted address_le (sorted_blocks rows).
Proof.
  rewrite sorted_blocks_spec. apply (sort_by_sorted address).
Qed.


(** X1. [is_next_to] does not depend on the order of its two blocks: the
    end of one is the address of the other. *)
Theorem X1_is_next_to_symmetric (a b : Block) :
  is_next_to a b = is_next_to b a.
Proof. apply is_next_to_sym. Qed.

(** X2. Two blocks that are next to each other share no address: an address
    [contains_address] finds in one is not in the other. *)
Theorem X2_touching_blocks_share_no_address (a b : Block) (x : Z) :
  is_next_to a b = true ->
  contains_address a x = true -> contains_address b x = false.
Proof.
  unfold is_next_to, contains_address. cbv zeta. intros Ht Ha.
  apply andb_prop in Ha as [Ha1 Ha2].
  apply Z.leb_le in Ha1. apply Z.ltb_lt in Ha2.
  apply andb_false_iff.
  apply orb_prop in Ht as [Ht|Ht]; apply Z.eqb_eq in Ht.
  - left. apply Z.leb_gt. lia.
  - right. apply Z.ltb_ge. lia.
Qed.

Lemma X2_touching_blocks_share_no_address_witness :
  contains_address (mkBlock 1 10 5 false true) 5 = false.
Proof.
  apply (X2_touching_blocks_share_no_address
           (mkBlock 0 0 10 true false) (mkBlock 1 10 5 false true) 5);
    reflexivity.
Defined.

(** X3. Whatever the rows, the list the report walks through is in
    non-decreasing order of address. *)
Theorem X3_sorted_by_address (rows : list Row) :
  StronglySorted address_le (sorted_blocks rows).
Proof.
  rewrite sorted_blocks_spec. apply (sort_by_sorted address).
Qed.


(** X4. The script answers "Does sorted data match original data?" with
    True exactly when the input blocks already come in non-decreasing order
    of address. *)
Theorem X4_matches_original_iff_sorted (rows : list Row) :
  matches_original (fst (fst (script rows))) = true
  <-> StronglySorted address_le (blocks_of rows).
Proof.
  pose proof (script_spec rows) as H. cbv zeta in H. rewrite H.
  cbn [fst matches_original]. clear H.
  set (key := fun r : ref => address (nth r (blocks_of rows) dummy)).
  assert (Hmap : StronglySorted address_le (blocks_of rows)
                 <-> StronglySorted (fun a b => (key a <= key b)%Z)
                                    (seq 0 (length rows))).
  { rewrite <- (map_nth_seq dummy (blocks_of rows)) at 1.
    rewrite length_blocks_of.
    exact (StronglySorted_map (fun r => nth r (blocks_of rows) dummy)
                              address_le (seq 0 (length rows))). }
  rewrite Hmap.
  destruct (list_eq_dec _ _ _) as [E|E]; split; intros Hs.
  - rewrite <- E. apply (sort_by_sorted key).
  - reflexivity.
  - discriminate.
  - exfalso. apply E. now apply sort_by_sorted_id.
Qed.

(** X5. A line "Block X is next to block Y" at position [i] of the report
    is right: X is the [i]-th block in sorted order, X and Y touch, and Y is
    the block just before or just after X in sorted order. *)
Theorem X5_next_to_line_is_sound
        (rows : list Row) (i : nat) (block other : Block) :
  nth_error (lines_of rows) i = Some (NextTo block other) ->
  let sd := sorted_blocks rows in
  nth_error sd i = Some block
  /\ is_next_to block other = true
  /\ ((0 < i /\ nth_error sd (i - 1) = Some other)
      \/ nth_error sd (i + 1) = Some other).
Proof. apply next_to_sound. Qed.

Lemma X5_next_to_line_is_sound_witness :
  let sd := sorted_blocks touching_rows in
  nth_error sd 1 = Some (mkBlock 0 10 5 false true)
  /\ is_next_to (mkBlock 0 10 5 false true) (mkBlock 1 0 10 true false) = true
  /\ ((0 < 1 /\ nth_error sd (1 - 1) = Some (mkBlock 1 0 10 true false))
      \/ nth_error sd (1 + 1) = Some (mkBlock 1 0 10 true false)).
Proof.
  apply (X5_next_to_line_is_sound touching_rows 1). reflexivity.
Defined.

(** X6. First match wins: a block that touches the block before it in
    sorted order is reported next to that block, whether or not it also
    touches the block after it. *)
Theorem X6_predecessor_reported_first
        (rows : list Row) (i : nat) (lb block : Block) :
  let sd := sorted_blocks rows in
  nth_error sd i = Some lb ->
  nth_error sd (S i) = Some block ->
  is_next_to lb block = true ->
  nth_error (lines_of rows) (S i) = Some (NextTo block lb).
Proof. apply first_match. Qed.

Lemma X6_predecessor_reported_first_witness :
  nth_error (lines_of touching_rows) 1 =
  Some (NextTo (mkBlock 0 10 5 false true) (mkBlock 1 0 10 true false)).
Proof.
  apply (X6_predecessor_reported_first touching_rows 0); reflexivity.
Defined.

(** X7. A block named as the neighbour in a "next to" line is never itself
    reported as not next to any other block: it has a "next to" line of its
    own. *)
Theorem X7_named_neighbour_not_isolated (rows : list Row) (block other : Block) :
  In (NextTo block other) (lines_of rows) ->
  exists third, In (NextTo other third) (lines_of rows).
Proof.
  intros H. apply In_nth_error in H as [i H].
  pose proof (next_to_sound rows i block other H) as (Hb & Ht & Hpos).
  cbv zeta in Hb, Hpos. set (sd := sorted_blocks rows) in *.
  destruct Hpos as [[H0 Ho]|Ho].
  - destruct i as [|j]; [lia|]. replace (S j - 1) with j in Ho by lia.
    apply (nth_error_nth_some _ _ dummy) in Hb as [Hb Hlt].
    assert (Hj : j < length sd) by lia.
    pose proof (lines_of_nth_inv rows j Hj) as Hline. fold sd in Hline.
    rewrite (report_line_cases sd j Hj) in Hline. cbv zeta in Hline.
    apply (nth_error_nth_some _ _ dummy) in Ho as [Ho _].
    rewrite Ho in Hline.
    destruct ((0 <? j) && _).
    + eexists. eapply nth_error_In, Hline.
    + replace (j + 1) with (S j) in Hline by lia.
      rewrite Hb, (is_next_to_sym other block), Ht in Hline.
      replace (j <? length sd - 1) with true in Hline
        by (symmetry; apply Nat.ltb_lt; lia).
      eexists. eapply nth_error_In, Hline.
  - exists block. replace (i + 1) with (S i) in Ho by lia.
    eapply nth_error_In. apply (first_match rows i block other); assumption.
Qed.


Lemma X7_named_neighbour_not_isolated_witness :
  exists third,
    In (NextTo (mkBlock 0 10 5 false true) third) (lines_of touching_rows).
Proof.
  apply (X7_named_neighbour_not_isolated touching_rows
           (mkBlock 1 0 10 true false) (mkBlock 0 10 5 false true)).
  vm_compute. auto.
Defined.

(** X8. When every block has a positive size and no two blocks overlap, a
    line "is not next to any other block" is right for the whole input: the
    block touches no other block at all, not only its two neighbours in
    sorted order. *)
Theorem X8_isolated_line_is_complete (rows : list Row) (i : nat) (block : Block) :
  (forall b, In b (blocks_of rows) -> (0 < size b)%Z) ->
  (forall a b, In a (blocks_of rows) -> In b (blocks_of rows) ->
               a <> b -> apart a b) ->
  nth_error (lines_of rows) i = Some (NotNextToAny block) ->
  forall other,
    In other (blocks_of rows) -> other <> block ->
    is_next_to block other = false.
Proof.
  intros Hpos Hapart Hline other Hin Hne.
  pose proof (not_next_to_local rows i block Hline) as [Hb Hlocal].
  cbv zeta in Hb, Hlocal. set (sd := sorted_blocks rows) in *.
  pose proof (sorted_blocks_perm rows) as Hperm. fold sd in Hperm.
  pose proof (sorted_blocks_sorted rows) as Hsorted. fold sd in Hsorted.
  assert (Hnodup : NoDup sd)
    by (apply (Permutation_NoDup (Permutation_sym Hperm)), blocks_of_NoDup).
  assert (Hmem : forall p x, nth_error sd p = Some x -> In x (blocks_of rows))
    by (intros p x Hx; apply (Permutation_in _ Hperm);
        eapply nth_error_In, Hx).
  assert (Hdiff : forall p q x y, nth_error sd p = Some x ->
                    nth_error sd q = Some y -> p <> q -> x <> y).
  { intros p q x y Hx Hy Hpq ->. apply Hpq.
    apply (proj1 (NoDup_nth_error sd) Hnodup).
    - apply nth_error_Some. congruence.
    - congruence. }
  assert (Hle : forall p q x y, p <= q -> nth_error sd p = Some x ->
                  nth_error sd q = Some y -> (address x <= address y)%Z).
  { intros p q x y Hpq Hx Hy. destruct (Nat.eq_dec p q) as [->|Hn].
    - rewrite Hx in Hy. injection Hy as ->. lia.
    - apply (StronglySorted_nth _ _ Hsorted p q); auto. lia. }
  apply (Permutation_in _ (Permutation_sym Hperm)) in Hin.
  apply In_nth_error in Hin as [j Hj].
  assert (Hij : j <> i) by (intros ->; rewrite Hb in Hj; congruence).
  pose proof (Hpos block (Hmem _ _ Hb)) as Hsb.
  pose proof (Hpos other (Hmem _ _ Hj)) as Hso.
  destruct (is_next_to block other) eqn:Ht; [exfalso|reflexivity].
  unfold is_next_to in Ht. cbv zeta in Ht.
  apply orb_prop in Ht as [Ht|Ht]; apply Z.eqb_eq in Ht.
  - (* the block ends where [other] starts: [other] lies after it *)
    assert (Hji : i < j).
    { destruct (Nat.lt_ge_cases i j) as [|Hge]; [assumption|].
      pose proof (Hle j i other block Hge Hj Hb). lia. }
    destruct (nth_error sd (i + 1)) as [nb|] eqn:Hnb.
    2:{ apply nth_error_None in Hnb.
        assert (j < length sd) by (apply nth_error_Some; congruence). lia. }
    pose proof (Hle i (i + 1) block nb ltac:(lia) Hb Hnb) as H1.
    pose proof (Hle (i + 1) j nb other ltac:(lia) Hnb Hj) as H2.
    pose proof (Hpos nb (Hmem _ _ Hnb)) as Hsn.
    assert (Hbn : block <> nb) by (apply (Hdiff i (i + 1)); auto; lia).
    pose proof (Hapart block nb (Hmem _ _ Hb) (Hmem _ _ Hnb) Hbn) as Ha.
    pose proof (Hlocal nb (or_intror eq_refl)) as Hf.
    unfold is_next_to in Hf. cbv zeta in Hf.
    apply orb_false_iff in Hf as [Hf _]. apply Z.eqb_neq in Hf.
    unfold apart, block_end in Ha. lia.
  - (* the block starts where [other] ends: [other] lies before it *)
    assert (Hji : j < i).
    { destruct (Nat.lt_ge_cases j i) as [|Hge]; [assumption|].
      pose proof (Hle i j block other Hge Hb Hj). lia. }
    destruct (nth_error sd (i - 1)) as [lb|] eqn:Hlb.
    2:{ apply nth_error_None in Hlb.
        assert (i < length sd) by (apply nth_error_Some; congruence). lia. }
    pose proof (Hle (i - 1) i lb block ltac:(lia) Hlb Hb) as H1.
    pose proof (Hle j (i - 1) other lb ltac:(lia) Hj Hlb) as H2.
    pose proof (Hpos lb (Hmem _ _ Hlb)) as Hsl.
    assert (Hbl : lb <> block) by (apply (Hdiff (i - 1) i); auto; lia).
    pose proof (Hapart lb block (Hmem _ _ Hlb) (Hmem _ _ Hb) Hbl) as Ha.
    assert (H0i : 0 < i) by lia.
    pose proof (Hlocal lb (or_introl (conj H0i eq_refl))) as Hf.
    unfold is_next_to in Hf. cbv zeta in Hf.
    apply orb_false_iff in Hf as [_ Hf]. apply Z.eqb_neq in Hf.
    unfold apart, block_end in Ha.
    destruct (Nat.eq_dec j (i - 1)) as [->|Hn].
    + rewrite Hlb in Hj. injection Hj as <-. lia.
    + assert (Hol : other <> lb) by (apply (Hdiff j (i - 1)); auto).
      pose proof (Hapart other lb (Hmem _ _ Hj) (Hmem _ _ Hlb) Hol) as Ha2.
      unfold apart, block_end in Ha2. lia.
Qed.

Lemma X8_isolated_line_is_complete_witness :
  is_next_to (mkBlock 1 0 10 true false) (mkBlock 0 20 5 true false) = false.
Proof.
  apply (X8_isolated_line_is_complete spaced_rows 0).
  - intros b [<-|[<-|[]]]; reflexivity.
  - intros a b [<-|[<-|[]]] [<-|[<-|[]]] Hne;
      try (exfalso; apply Hne; reflexivity);
      unfold apart, block_end; cbn; lia.
  - reflexivity.
  - vm_compute. auto.
  - discriminate.
Defined.

(** X9. The [id] printed with a block is its position in the input: every
    block of the sorted list is the block found at index [id] of the
    original list. *)
Theorem X9_id_is_input_position (rows : list Row) (b : Block) :
  In b (sorted_blocks rows) ->
  nth_error (blocks_of rows) (id b) = Some b.
Proof.
  intros H. apply (Permutation_in _ (sorted_blocks_perm rows)) in H.
  apply In_nth_error in H as [k Hk].
  assert (E : nth_error (map id (blocks_of rows)) k = Some (id b))
    by (rewrite nth_error_map, Hk; reflexivity).
  rewrite ids_of_blocks, nth_error_seq in E.
  destruct (k <? length rows); [|discriminate].
  cbn in E. injection E as <-. exact Hk.
Qed.


Lemma X9_id_is_input_position_witness :
  nth_error (blocks_of touching_rows) (id (mkBlock 1 0 10 true false))
  = Some (mkBlock 1 0 10 true false).
Proof.
  apply (X9_id_is_input_position touching_rows). vm_compute. auto.
Defined.

End SortBlocksMore.
